(** * visionsolve pi-client: camera source and device session

    A shallow embedding of [camera.py] (class [PiCamera]) and [client.py]
    (the asyncio session: message router, keep-alive loops, per-viewer
    stream workers, [main_loop] and [main]), followed by the properties
    established about them.

    Conventions.
    - Everything the program obtains from outside (camera drivers, the
      file system calls that can fail, the websocket, the registration
      server, signals) is an explicit environment argument of the function
      that consults it.
    - Every [await asyncio.sleep(s)], every backend probe and every
      websocket send or close is recorded, in program order, in a list of
      [Effect]s.  Durations are in milliseconds.
    - asyncio tasks are cooperative.  A task is a record with its
      coroutine and program point; one scheduler [Event] resumes one task,
      which then evaluates its loop test and runs one iteration of its
      loop, the waits inside the iteration not being interleaved with
      other tasks.  The pacing sleep of a stream worker, whose length
      depends on the clock, is not recorded. *)

From stdpp Require Import gmap strings list.
From Equations Require Import Equations.
From Stdlib Require Import ZArith Lia.
From Stdlib.Init Require Import Byte.

(** ** Wire format (client.py, the [json.dumps] payloads) *)

Inductive Envelope :=
| Image (device_id : string) (image : list byte) (timestamp : Z)
        (requesting_client_id : option string) (battery : option Z)
| Frame (device_id : string) (image : list byte) (timestamp : Z)
        (client_id : string) (battery : option Z)
| StatusUpdate (device_id : string) (battery : option Z) (uptime : Z)
               (timestamp : Z)
| Ping (device_id : string) (timestamp : Z).

(** The [image] field carries the bytes whose base64 text is transmitted. *)

Definition battery_field (e : Envelope) : option (option Z) :=
  match e with
  | Image _ _ _ _ b => Some b
  | Frame _ _ _ _ b => Some b
  | StatusUpdate _ b _ _ => Some b
  | Ping _ _ => None
  end.

Inductive Driver := Picamera2 | LegacyPiCamera.

Inductive Effect :=
| Slept (ms : Z)
| Probed (d : Driver)
| Sent (conn : nat) (e : Envelope)
| WsClosed (conn : nat).

Definition is_sleep (ms : Z) (e : Effect) : bool :=
  match e with Slept d => bool_decide (d = ms) | _ => false end.

Definition count (p : Effect → bool) (tr : list Effect) : nat :=
  length (List.filter p tr).

Definition inspect {A : Type} (x : A) : { y : A | x = y } := exist _ x eq_refl.

(** ** camera.py *)

Module Camera.

Inductive CameraType := picamera2 | legacy | disabled.

Abbreviation FS := (gmap string (list byte)).

(** The attributes of a [PiCamera] object.  With [NO_CAMERA=1] the
    constructor returns before the two attempt attributes are assigned;
    no method reads them on such an object, and the record carries the
    values every other object has. *)
Record PiCamera := {
  camera : option Driver;
  initialized : bool;
  camera_type : option CameraType;
  temp_dir : string;
  no_camera : bool;
  max_init_attempts : nat;
  current_attempt : nat;
  streaming_config : option (nat * nat);
}.

Definition __init__ (NO_CAMERA : bool) (TEMP_IMAGE_DIR : string) : PiCamera :=
  {| camera := None; initialized := false;
     camera_type := if NO_CAMERA then Some disabled else None;
     temp_dir := TEMP_IMAGE_DIR; no_camera := NO_CAMERA;
     max_init_attempts := 3; current_attempt := 0;
     streaming_config := None |}.

Definition set_driver (self : PiCamera) (d : option Driver) : PiCamera :=
  {| camera := d; initialized := initialized self;
     camera_type := camera_type self; temp_dir := temp_dir self;
     no_camera := no_camera self;
     max_init_attempts := max_init_attempts self;
     current_attempt := current_attempt self;
     streaming_config := streaming_config self |}.

Definition set_ready (self : PiCamera) (d : Driver) (t : CameraType) : PiCamera :=
  {| camera := Some d; initialized := true;
     camera_type := Some t; temp_dir := temp_dir self;
     no_camera := no_camera self;
     max_init_attempts := max_init_attempts self;
     current_attempt := current_attempt self;
     streaming_config := streaming_config self |}.

Definition set_released (self : PiCamera) : PiCamera :=
  {| camera := None; initialized := false;
     camera_type := camera_type self; temp_dir := temp_dir self;
     no_camera := no_camera self;
     max_init_attempts := max_init_attempts self;
     current_attempt := current_attempt self;
     streaming_config := streaming_config self |}.

Definition next_attempt (self : PiCamera) : PiCamera :=
  {| camera := camera self; initialized := initialized self;
     camera_type := camera_type self; temp_dir := temp_dir self;
     no_camera := no_camera self;
     max_init_attempts := max_init_attempts self;
     current_attempt := S (current_attempt self);
     streaming_config := streaming_config self |}.

Definition set_streaming_config (self : PiCamera) (r : nat * nat) : PiCamera :=
  {| camera := camera self; initialized := initialized self;
     camera_type := camera_type self; temp_dir := temp_dir self;
     no_camera := no_camera self;
     max_init_attempts := max_init_attempts self;
     current_attempt := current_attempt self;
     streaming_config := Some r |}.

(** What one backend probe meets.  [Down true]: the driver object was
    constructed and assigned to [self.camera] before the failure;
    [Down false]: import error, or no hardware detected. *)
Inductive Probe := Up | Down (driver_assigned : bool).

(** What the [try] block of one [initialize] call meets: the two probes
    in order, or an exception escaping the block. *)
Inductive Attempt := Probes (a b : Probe) | Escapes.

(** [_try_initialize_picamera2] and [_try_initialize_legacy]: on success
    the driver is stored, the camera warms up for two seconds and the
    object is marked initialized. *)
Definition _try_initialize (d : Driver) (t : CameraType) (self : PiCamera)
    (p : Probe) : bool * PiCamera * list Effect :=
  match p with
  | Up => (true, set_ready self d t, [Probed d; Slept 2000])
  | Down true => (false, set_driver self (Some d), [Probed d])
  | Down false => (false, self, [Probed d])
  end.

Definition _try_initialize_picamera2 := _try_initialize Picamera2 picamera2.
Definition _try_initialize_legacy := _try_initialize LegacyPiCamera legacy.

(** The [try] block of [initialize] up to the retry decision: [true]
    when one of the two [return True] statements is reached. *)
Definition try_backends (self : PiCamera) (a : Attempt)
    : bool * PiCamera * list Effect :=
  match a with
  | Escapes => (false, self, [])
  | Probes pa pb =>
      let '(ok, self1, tr1) := _try_initialize_picamera2 self pa in
      if ok then (true, self1, tr1)
      else
        let '(ok2, self2, tr2) := _try_initialize_legacy self1 pb in
        (ok2, self2, tr1 ++ tr2)
  end.

(** [initialize].  The hardware is consulted once per call; [hw n] is
    what the call that raises [current_attempt] to [n] meets.  Both the
    normal failure branch and the exception handler test
    [current_attempt < max_init_attempts], sleep ten seconds and call
    [initialize] again. *)
Equations? initialize (self : PiCamera) (hw : nat → Attempt)
    : bool * PiCamera * list Effect
    by wf (max_init_attempts self - current_attempt self)%nat lt :=
initialize self hw with inspect (no_camera self) := {
  | exist _ true _ := (false, self, []);
  | exist _ false _
      with inspect (try_backends (next_attempt self)
                      (hw (S (current_attempt self)))) := {
    | exist _ (true, self1, tr) _ := (true, self1, tr);
    | exist _ (false, self1, tr) Hb
        with inspect (current_attempt self1 <? max_init_attempts self1)%nat := {
      | exist _ true Hlt :=
          let r := initialize self1 hw in
          (r.1.1, r.1.2, tr ++ Slept 10000 :: r.2);
      | exist _ false _ := (false, self1, tr) } } }.
Proof.
  apply Nat.ltb_lt in Hlt.
  destruct (hw (S (current_attempt self))) as [[|[]] [|[]]|];
    simpl in Hb; inversion Hb; subst; simpl in *; lia.
Qed.

(** [cleanup(partial)]: the driver is stopped or closed and forgotten;
    a full cleanup of a camera-bearing object also removes every file of
    the scratch directory. *)
Definition in_dir (dir path : string) : bool :=
  String.prefix (dir +:+ "/") path.

Definition purge (dir : string) (fs : FS) : FS :=
  filter (λ kv, in_dir dir kv.1 = false) fs.

Definition cleanup (self : PiCamera) (partial : bool) (fs : FS)
    : PiCamera * FS :=
  let self1 := match camera self with
               | Some _ => set_released self
               | None => self
               end in
  if negb partial && negb (no_camera self)
  then (self1, purge (temp_dir self) fs)
  else (self1, fs).

(** ** Still capture *)

(** What one driver capture call does: the bytes it leaves at the path it
    was given (if it gets as far as writing) and whether it raises. *)
Record Shot := { written : option (list byte); raises : bool }.

(** The environment of one [capture_image] call: the generated final
    path, the name [tempfile.NamedTemporaryFile] picks, the driver's
    behaviour at each capture call, and whether [os.rename] raises. *)
Record Still := {
  filename : string;
  tmp_path : string;
  shots : nat → Shot;
  rename_raises : bool;
}.

(** [os.path.exists(p) and os.path.getsize(p) > 0] *)
Definition exists_nonempty (fs : FS) (p : string) : bool :=
  match fs !! p with
  | Some (_ :: _) => true
  | _ => false
  end.

Definition shoot (fs : FS) (path : string) (c : Shot) : FS :=
  match written c with
  | Some b => <[path := b]> fs
  | None => fs
  end.

Definition rename (src dst : string) (fs : FS) : FS :=
  match fs !! src with
  | Some b => <[dst := b]> (delete src fs)
  | None => fs
  end.

(** The [picamera2] branch: [true] when the branch completes, [false]
    when it re-raises after removing the temporary file. *)
Definition capture_picamera2 (fs : FS) (env : Still) : bool * FS :=
  let fs1 := <[tmp_path env := []]> fs in
  let c := shots env 0 in
  let fs2 := shoot fs1 (tmp_path env) c in
  if raises c then (false, delete (tmp_path env) fs2)
  else if exists_nonempty fs2 (tmp_path env) then
    if rename_raises env then (false, delete (tmp_path env) fs2)
    else (true, rename (tmp_path env) (filename env) fs2)
  else (false, delete (tmp_path env) fs2).

Definition max_attempts : nat := 3.

(** The [legacy] branch, [for attempt in range(max_attempts)]: the driver
    writes straight to the final path. *)
Fixpoint legacy_attempts (todo : list nat) (fs : FS) (env : Still)
    : bool * FS * list Effect :=
  match todo with
  | [] => (true, fs, [])
  | attempt :: rest =>
      let c := shots env attempt in
      let fs1 := shoot fs (filename env) c in
      if negb (raises c) && exists_nonempty fs1 (filename env)
      then (true, fs1, [])
      else if (attempt <? max_attempts - 1)%nat then
        let '(ok, fs2, tr) := legacy_attempts rest fs1 env in
        (ok, fs2, Slept 1000 :: tr)
      else (false, fs1, [])
  end.

Definition capture_legacy (fs : FS) (env : Still) : bool * FS * list Effect :=
  legacy_attempts (seq 0 max_attempts) fs env.

(** The outer [try] block of [capture_image]: the path returned, if any. *)
Definition capture_body (self : PiCamera) (fs : FS) (env : Still)
    : option string * FS * list Effect :=
  let '(ok, fs1, tr) :=
    match camera_type self with
    | Some picamera2 =>
        let '(ok, fs1) := capture_picamera2 fs env in (ok, fs1, [])
    | Some legacy => capture_legacy fs env
    | _ => (false, fs, [])
    end in
  if ok && exists_nonempty fs1 (filename env)
  then (Some (filename env), fs1, tr)
  else (None, fs1, tr).

(** [capture_image]: on any failure of the body the camera is released
    ([cleanup(partial=True)]), two seconds pass, [initialize] is called
    and [None] is returned. *)
Definition capture_image (self : PiCamera) (fs : FS) (env : Still)
    (hw : nat → Attempt) : option string * PiCamera * FS * list Effect :=
  if no_camera self || negb (initialized self) || negb (bool_decide (is_Some (camera self)))
  then (None, self, fs, [])
  else
    match capture_body self fs env with
    | (Some path, fs1, tr) => (Some path, self, fs1, tr)
    | (None, fs1, tr) =>
        let '(self1, fs2) := cleanup self true fs1 in
        let '(_, self2, tr2) := initialize self1 hw in
        (None, self2, fs2, tr ++ Slept 2000 :: tr2)
    end.

(** [capture_frame]: [raster] is what the driver delivers, [None] when
    it raises. *)
Definition capture_frame (self : PiCamera) (resolution : nat * nat)
    (raster : option (list byte)) : option (list byte) * PiCamera * list Effect :=
  if no_camera self || negb (initialized self) || negb (bool_decide (is_Some (camera self)))
  then (None, self, [])
  else
    match camera_type self with
    | Some picamera2 =>
        let reconfigure :=
          negb (bool_decide (streaming_config self = Some resolution)) in
        let self1 := if reconfigure
                     then set_streaming_config self resolution else self in
        let tr := if reconfigure then [Slept 100] else [] in
        match raster with
        | Some f => (Some f, self1, tr)
        | None => (None, self1, tr ++ [Slept 500])
        end
    | Some legacy =>
        match raster with
        | Some f => (Some f, self, [])
        | None => (None, self, [Slept 500])
        end
    | _ => (None, self, [Slept 500])
    end.

(** [check_health].  A disabled camera is unhealthy; a camera that is not
    initialised is initialised; otherwise a probe image is captured and,
    if it is there, removed.  When the probe fails the driver is released
    and [initialize] is called.  The body of the [except] handler of this
    method is not part of the source file; none of the calls made here
    raises in this model. *)
Definition check_health (self : PiCamera) (fs : FS) (env : Still)
    (hw : nat → Attempt) : bool * PiCamera * FS * list Effect :=
  if no_camera self then (false, self, fs, [])
  else if negb (initialized self) || negb (bool_decide (is_Some (camera self)))
  then
    let '(r, self1, tr) := initialize self hw in (r, self1, fs, tr)
  else
    let '(test_image, self1, fs1, tr) := capture_image self fs env hw in
    let probe :=
      match test_image with
      | Some p =>
          if decide (p = "") then None
          else if bool_decide (is_Some (fs1 !! p)) then Some p else None
      | None => None
      end in
    match probe with
    | Some p => (true, self1, delete p fs1, tr)
    | None =>
        let '(self2, fs2) := cleanup self1 true fs1 in
        let '(r, self3, tr3) := initialize self2 hw in
        (r, self3, fs2, tr ++ tr3)
    end.

(** *** The object through its public methods *)

(** One method call with what it meets. *)
Inductive Call :=
| CallInitialize (hw : nat → Attempt)
| CallCleanup (partial : bool)
| CallCaptureImage (env : Still) (hw : nat → Attempt)
| CallCaptureFrame (resolution : nat * nat) (raster : option (list byte))
| CallCheckHealth (env : Still) (hw : nat → Attempt).

Inductive Returned :=
| Flag (b : bool)
| Path (p : option string)
| Raster (f : option (list byte))
| Nothing.

(** The object, the file system and the effects so far. *)
Record Usage := { object : PiCamera; disk : FS; log : list Effect }.

Definition call (s : Usage) (c : Call) : Returned * Usage :=
  match c with
  | CallInitialize hw =>
      let '(r, self1, tr) := initialize (object s) hw in
      (Flag r, {| object := self1; disk := disk s; log := log s ++ tr |})
  | CallCleanup partial =>
      let '(self1, fs1) := cleanup (object s) partial (disk s) in
      (Nothing, {| object := self1; disk := fs1; log := log s |})
  | CallCaptureImage env hw =>
      let '(p, self1, fs1, tr) := capture_image (object s) (disk s) env hw in
      (Path p, {| object := self1; disk := fs1; log := log s ++ tr |})
  | CallCaptureFrame resolution raster =>
      let '(f, self1, tr) := capture_frame (object s) resolution raster in
      (Raster f, {| object := self1; disk := disk s; log := log s ++ tr |})
  | CallCheckHealth env hw =>
      let '(r, self1, fs1, tr) := check_health (object s) (disk s) env hw in
      (Flag r, {| object := self1; disk := fs1; log := log s ++ tr |})
  end.

Definition calls (s : Usage) (cs : list Call) : Usage :=
  fold_left (λ s c, (call s c).2) cs s.

(** A new object on a given file system. *)
Definition fresh (NO_CAMERA : bool) (TEMP_IMAGE_DIR : string) (fs : FS) : Usage :=
  {| object := __init__ NO_CAMERA TEMP_IMAGE_DIR; disk := fs; log := [] |}.

End Camera.

(** ** client.py *)

Module Client.

Abbreviation PiCamera := Camera.PiCamera.
Abbreviation FS := Camera.FS.

(** Configuration read from the process environment. *)
Record Config := {
  DEVICE_ID : string;
  NO_CAMERA : bool;
  TEMP_IMAGE_DIR : string;
  STREAM_RESOLUTION : nat * nat;
}.

(** A connection object returned by [websockets.connect]. *)
Record WebSocket := { conn : nat; open : bool }.

(** *** The event loop's tasks *)

(** Program points of [handle_server_messages]: waiting in [recv]; in
    the five-second sleep of its exit path; inside the nested
    [main_loop], waiting in [asyncio.gather] for the tasks it created. *)
Inductive RouterPc := Receiving | Draining | Gathering (children : list nat).

(** The coroutines run as tasks: [handle_server_messages] (the message
    router), [ping_server], [send_status_updates], and
    [start_video_stream client_id] (a stream worker; [started] is false
    between [create_task] and the first time the task runs). *)
Inductive Coroutine :=
| Router (pc : RouterPc)
| Pinger
| Reporter
| Streamer (client_id : string) (started : bool).

(** [born] is the number of the [main_loop] run (the cohort) under which
    the task was created. *)
Record Task := { tid : nat; born : nat; coro : Coroutine }.

(** Program points of [main]: at the loop test; inside [main_loop]
    waiting in [asyncio.gather]; after the loop. *)
Inductive MainPc := Top | Waiting (children : list nat) | Exited.

(** The module's global variables, the event loop, and the outside
    world (file system, connection counter, observable effects). *)
Record World := {
  cfg : Config;
  camera : option PiCamera;
  websocket : option WebSocket;
  token : option string;
  stop_event : bool;
  active_streams : gmap string bool;
  main_task : MainPc;
  tasks : list Task;
  next_tid : nat;
  cohort : nat;
  next_conn : nat;
  fs : FS;
  trace : list Effect;
}.

Definition set_camera (v : option PiCamera) (w : World) : World :=
  Build_World (cfg w) v (websocket w) (token w) (stop_event w)
    (active_streams w) (main_task w) (tasks w) (next_tid w) (cohort w)
    (next_conn w) (fs w) (trace w).
Definition set_websocket (v : option WebSocket) (w : World) : World :=
  Build_World (cfg w) (camera w) v (token w) (stop_event w)
    (active_streams w) (main_task w) (tasks w) (next_tid w) (cohort w)
    (next_conn w) (fs w) (trace w).
Definition set_token (v : option string) (w : World) : World :=
  Build_World (cfg w) (camera w) (websocket w) v (stop_event w)
    (active_streams w) (main_task w) (tasks w) (next_tid w) (cohort w)
    (next_conn w) (fs w) (trace w).
Definition set_stop_event (v : bool) (w : World) : World :=
  Build_World (cfg w) (camera w) (websocket w) (token w) v
    (active_streams w) (main_task w) (tasks w) (next_tid w) (cohort w)
    (next_conn w) (fs w) (trace w).
Definition set_active_streams (v : gmap string bool) (w : World) : World :=
  Build_World (cfg w) (camera w) (websocket w) (token w) (stop_event w)
    v (main_task w) (tasks w) (next_tid w) (cohort w)
    (next_conn w) (fs w) (trace w).
Definition set_main_task (v : MainPc) (w : World) : World :=
  Build_World (cfg w) (camera w) (websocket w) (token w) (stop_event w)
    (active_streams w) v (tasks w) (next_tid w) (cohort w)
    (next_conn w) (fs w) (trace w).
Definition set_tasks (v : list Task) (w : World) : World :=
  Build_World (cfg w) (camera w) (websocket w) (token w) (stop_event w)
    (active_streams w) (main_task w) v (next_tid w) (cohort w)
    (next_conn w) (fs w) (trace w).
Definition set_next_tid (v : nat) (w : World) : World :=
  Build_World (cfg w) (camera w) (websocket w) (token w) (stop_event w)
    (active_streams w) (main_task w) (tasks w) v (cohort w)
    (next_conn w) (fs w) (trace w).
Definition set_cohort (v : nat) (w : World) : World :=
  Build_World (cfg w) (camera w) (websocket w) (token w) (stop_event w)
    (active_streams w) (main_task w) (tasks w) (next_tid w) v
    (next_conn w) (fs w) (trace w).
Definition set_next_conn (v : nat) (w : World) : World :=
  Build_World (cfg w) (camera w) (websocket w) (token w) (stop_event w)
    (active_streams w) (main_task w) (tasks w) (next_tid w) (cohort w)
    v (fs w) (trace w).
Definition set_fs (v : FS) (w : World) : World :=
  Build_World (cfg w) (camera w) (websocket w) (token w) (stop_event w)
    (active_streams w) (main_task w) (tasks w) (next_tid w) (cohort w)
    (next_conn w) v (trace w).
Definition emit (tr : list Effect) (w : World) : World :=
  Build_World (cfg w) (camera w) (websocket w) (token w) (stop_event w)
    (active_streams w) (main_task w) (tasks w) (next_tid w) (cohort w)
    (next_conn w) (fs w) (trace w ++ tr).

(** [asyncio.create_task]: the new task is appended to the loop's tasks
    and does not run before the creator suspends. *)
Definition create_task (cohort_no : nat) (c : Coroutine) (w : World)
    : nat * World :=
  (next_tid w,
   set_next_tid (S (next_tid w))
     (set_tasks (tasks w ++ [{| tid := next_tid w; born := cohort_no; coro := c |}]) w)).

Definition find_task (t : nat) (w : World) : option Task :=
  List.find (λ k, (tid k =? t)%nat) (tasks w).

Definition finish (t : nat) (w : World) : World :=
  set_tasks (List.filter (λ k, negb (tid k =? t)%nat) (tasks w)) w.

Definition retarget (t : nat) (c : Coroutine) (k : Task) : Task :=
  if (tid k =? t)%nat then {| tid := tid k; born := born k; coro := c |} else k.

Definition resume_at (t : nat) (c : Coroutine) (w : World) : World :=
  set_tasks (map (retarget t c) (tasks w)) w.

Definition all_done (children : list nat) (w : World) : bool :=
  forallb (λ c, negb (existsb (λ k, (tid k =? c)%nat) (tasks w))) children.

(** *** The environment of one resumption *)

(** An inbound JSON object, through the three [data.get] calls the
    router makes; a viewer identifier, when present, is a string. *)
Record Message := {
  msg_type : option string;
  msg_client_id : option string;
  msg_message : option string;
}.

(** What [websocket.recv] under its five-second timeout yields to the
    router: a message, [asyncio.TimeoutError], [ConnectionClosed], or any
    other exception of the loop body (malformed JSON included). *)
Inductive Recv := Delivered (m : Message) | TimedOut | ConnectionClosed | Faulted.

(** What [websocket.send] does: returns, raises [ConnectionClosed], or
    raises another exception. *)
Inductive SendResult := SendOk | SendClosed | SendError.

(** The registration call: status 200 with the [token] field of the
    answer, another status, or an exception. *)
Inductive Registration := Registered (tok : option string) | Rejected | RegistrationError.

(** The connection attempt: [websockets.connect] raises; the first
    message is [connected]; it is something else (or unreadable); none
    arrives within ten seconds. *)
Inductive Connection := Refused | Confirmed | Unexpected | ConfirmTimeout.

(** Everything one resumption can consult: the clock, the uptime file,
    the websocket, the camera driver and hardware, the registration
    server. *)
Record Env := {
  now : Z;
  uptime : Z;
  recv : Recv;
  send : SendResult;
  still : Camera.Still;
  read_raises : bool;
  raster : option (list byte);
  hw : nat → Camera.Attempt;
  registration : Registration;
  connection : Connection;
}.

(** Python truthiness of an optional string: [None] and the empty string
    are false. *)
Definition truthy (s : option string) : option string :=
  match s with
  | Some v => if decide (v = "") then None else Some v
  | None => None
  end.

(** [check_battery]: the [try] block is [return 100]; nothing in it can
    raise, so the handler's [return None] is never reached. *)
Definition check_battery : option Z := Some 100%Z.

(** [await websocket.send(...)]: a send on a connection that is no longer
    open raises [ConnectionClosed]; otherwise the environment decides. *)
Definition ws_send (w : World) (env : Env) (e : Envelope) : SendResult * World :=
  match websocket w with
  | Some ws =>
      if open ws then
        match send env with
        | SendOk => (SendOk, emit [Sent (conn ws) e] w)
        | r => (r, w)
        end
      else (SendClosed, w)
  | None => (SendError, w)
  end.

(** [connect_and_register]: registration is skipped when a token is
    held; the connection object is stored as soon as
    [websockets.connect] returns, before the confirmation is awaited. *)
Definition connect_and_register (w : World) (env : Env) : bool * World :=
  let registered :=
    match truthy (token w) with
    | Some _ => Some w
    | None =>
        match registration env with
        | Registered tok => Some (set_token tok w)
        | Rejected | RegistrationError => None
        end
    end in
  match registered with
  | None => (false, w)
  | Some w1 =>
      match connection env with
      | Refused => (false, w1)
      | c =>
          let ws := {| conn := next_conn w1; open := true |} in
          let w2 := set_next_conn (S (next_conn w1))
                      (set_websocket (Some ws) w1) in
          (match c with Confirmed => true | _ => false end, w2)
      end
  end.

(** [capture_and_send_image]: the file is read, sent and removed inside
    one [try] block whose handler returns [False]. *)
Definition capture_and_send_image (client_id : option string) (w : World)
    (env : Env) : bool * World :=
  match camera w, websocket w with
  | Some cam, Some _ =>
      let '(image_path, cam1, fs1, tr) :=
        Camera.capture_image cam (fs w) (still env) (hw env) in
      let w1 := emit tr (set_fs fs1 (set_camera (Some cam1) w)) in
      match truthy image_path with
      | None => (false, w1)
      | Some p =>
          match (if read_raises env then None else fs1 !! p) with
          | None => (false, w1)
          | Some bytes =>
              match ws_send w1 env
                      (Image (DEVICE_ID (cfg w)) bytes (now env) client_id
                         check_battery) with
              | (SendOk, w2) => (true, set_fs (delete p (fs w2)) w2)
              | (_, w2) => (false, w2)
              end
          end
      end
  | _, _ => (false, w)
  end.

(** [main_loop], the [finally] clause. *)
Definition main_loop_finally (w : World) : World :=
  let w1 :=
    match websocket w with
    | Some ws =>
        if open ws
        then emit [WsClosed (conn ws)]
               (set_websocket (Some {| conn := conn ws; open := false |}) w)
        else w
    | None => w
    end in
  match camera w1 with
  | Some cam =>
      let '(cam1, fs1) := Camera.cleanup cam false (fs w1) in
      set_fs fs1 (set_camera (Some cam1) w1)
  | None => w1
  end.

(** [main_loop] from its start to the [asyncio.gather]: [Some children]
    when the three tasks were created and the caller now waits for them,
    [None] when [main_loop] returned (its [finally] clause executed).
    [ensure_camera] is its first statement, [if not camera: ...]: the
    camera object is created and initialised only when the global is
    still [None]. *)
Definition ensure_camera (w : World) (env : Env) : bool * World :=
  match camera w with
  | Some _ => (true, w)
  | None =>
      let '(r, cam, tr) :=
        Camera.initialize
          (Camera.__init__ (NO_CAMERA (cfg w)) (TEMP_IMAGE_DIR (cfg w)))
          (hw env) in
      (r, emit tr (set_camera (Some cam) w))
  end.

Definition main_loop (w : World) (env : Env) : option (list nat) * World :=
  let '(camera_ok, w1) := ensure_camera w env in
  if negb camera_ok
  then (None, main_loop_finally (set_stop_event true w1))
  else
    let '(connected, w2) := connect_and_register w1 env in
    if negb connected
    then (None, main_loop_finally (emit [Slept 10000] w2))
    else
      let w3 := set_cohort (S (cohort w2)) w2 in
      let '(message_handler, w4) := create_task (cohort w3) (Router Receiving) w3 in
      let '(ping_task, w5) := create_task (cohort w3) Pinger w4 in
      let '(status_task, w6) := create_task (cohort w3) Reporter w5 in
      (Some [message_handler; ping_task; status_task], w6).

(** [main] after [main_loop] has returned. *)
Definition main_after_loop (w : World) : World :=
  if stop_event w then set_main_task Exited w
  else set_main_task Top (emit [Slept 5000] w).

(** [main]: one resumption of the top-level coroutine. *)
Definition main (w : World) (env : Env) : World :=
  match main_task w with
  | Top =>
      if stop_event w then set_main_task Exited w
      else
        match main_loop w env with
        | (Some children, w1) => set_main_task (Waiting children) w1
        | (None, w1) => main_after_loop w1
        end
  | Waiting children =>
      if all_done children w then main_after_loop (main_loop_finally w)
      else w
  | Exited => w
  end.

(** The body of the router's loop after [recv] delivered [m]. *)
Definition dispatch (self : Task) (m : Message) (w : World) (env : Env)
    : World :=
  match msg_type m with
  | Some ty =>
      if decide (ty = "capture_request") then
        (capture_and_send_image (msg_client_id m) w env).2
      else if decide (ty = "stream_request") then
        match truthy (msg_client_id m) with
        | Some client_id =>
            (create_task (born self) (Streamer client_id false) w).2
        | None => w
        end
      else if decide (ty = "stop_stream") then
        match truthy (msg_client_id m) with
        | Some client_id =>
            match active_streams w !! client_id with
            | Some _ =>
                set_active_streams (<[client_id := false]> (active_streams w)) w
            | None => w
            end
        | None => w
        end
      else w
  | None => w
  end.

(** [handle_server_messages]: one resumption.  At [Receiving] the loop
    test is evaluated and one iteration runs; a closed connection or any
    other exception leaves the loop, and unless the stop event is set the
    registry is cleared, five seconds pass and [main_loop] is entered
    from inside this task. *)
Definition handle_server_messages (self : Task) (pc : RouterPc) (w : World)
    (env : Env) : World :=
  match pc with
  | Receiving =>
      if stop_event w then finish (tid self) w
      else
        match recv env with
        | Delivered m => dispatch self m w env
        | TimedOut => w
        | ConnectionClosed | Faulted =>
            resume_at (tid self) (Router Draining)
              (emit [Slept 5000] (set_active_streams ∅ w))
        end
  | Draining =>
      match main_loop w env with
      | (Some children, w1) =>
          resume_at (tid self) (Router (Gathering children)) w1
      | (None, w1) => finish (tid self) w1
      end
  | Gathering children =>
      if all_done children w then finish (tid self) (main_loop_finally w)
      else w
  end.

(** [start_video_stream]: one resumption.  The first one performs the
    guard and the registry insertion; each one evaluates the loop test
    and runs one iteration (an exception other than [ConnectionClosed]
    costs half a second and the loop goes on); leaving the loop executes
    the [finally] clause, which deletes the registry entry if present. *)
Definition start_video_stream (self : Task) (client_id : string)
    (started : bool) (w : World) (env : Env) : World :=
  let entered :=
    if started then Some w
    else
      match camera w, websocket w with
      | Some _, Some _ =>
          Some (resume_at (tid self) (Streamer client_id true)
                  (set_active_streams (<[client_id := true]> (active_streams w)) w))
      | _, _ => None
      end in
  match entered with
  | None => finish (tid self) w
  | Some w1 =>
      let finally w' :=
        finish (tid self)
          (set_active_streams (delete client_id (active_streams w')) w') in
      if default false (active_streams w1 !! client_id) && negb (stop_event w1)
      then
        match camera w1, websocket w1 with
        | Some cam, Some ws =>
            if negb (open ws) then finally w1
            else
              let '(frame, cam1, tr) :=
                Camera.capture_frame cam (STREAM_RESOLUTION (cfg w1)) (raster env) in
              let w2 := emit tr (set_camera (Some cam1) w1) in
              match frame with
              | None => emit [Slept 500] w2
              | Some f =>
                  match ws_send w2 env
                          (Frame (DEVICE_ID (cfg w2)) f (now env) client_id
                             check_battery) with
                  | (SendOk, w3) => w3
                  | (SendClosed, w3) => finally w3
                  | (SendError, w3) => emit [Slept 500] w3
                  end
              end
        | _, _ => emit [Slept 500] w1
        end
      else finally w1
  end.

(** [ping_server] and [send_status_updates]: one resumption each. *)
Definition keepalive (self : Task) (period : Z) (e : Envelope) (w : World)
    (env : Env) : World :=
  if stop_event w then finish (tid self) w
  else
    match websocket w with
    | Some ws =>
        if open ws then
          match ws_send w env e with
          | (SendOk, w1) => emit [Slept period] w1
          | (SendClosed, w1) => finish (tid self) w1
          | (SendError, w1) => emit [Slept period] w1
          end
        else emit [Slept period] w
    | None => emit [Slept period] w
    end.

Definition ping_server (self : Task) (w : World) (env : Env) : World :=
  keepalive self 30000 (Ping (DEVICE_ID (cfg w)) (now env)) w env.

Definition send_status_updates (self : Task) (w : World) (env : Env) : World :=
  keepalive self 60000
    (StatusUpdate (DEVICE_ID (cfg w)) check_battery (uptime env) (now env))
    w env.

(** *** The scheduler *)

(** [Signal]: SIGINT or SIGTERM is delivered (the handler sets the stop
    event).  [PeerClosed]: the connection is closed from outside. *)
Inductive Event :=
| Signal
| PeerClosed
| ResumeMain (env : Env)
| Resume (t : nat) (env : Env).

Definition step (w : World) (ev : Event) : World :=
  match ev with
  | Signal => set_stop_event true w
  | PeerClosed =>
      match websocket w with
      | Some ws => set_websocket (Some {| conn := conn ws; open := false |}) w
      | None => w
      end
  | ResumeMain env => main w env
  | Resume t env =>
      match find_task t w with
      | Some self =>
          match coro self with
          | Router pc => handle_server_messages self pc w env
          | Pinger => ping_server self w env
          | Reporter => send_status_updates self w env
          | Streamer client_id started =>
              start_video_stream self client_id started w env
          end
      | None => w
      end
  end.

Definition run (w : World) (evs : list Event) : World := fold_left step evs w.

(** The process at start: no camera, no connection, no token, the stop
    event clear, an empty registry, [main] about to run. *)
Definition boot (c : Config) (disk : FS) : World :=
  {| cfg := c; camera := None; websocket := None; token := None;
     stop_event := false; active_streams := ∅; main_task := Top;
     tasks := []; next_tid := 0; cohort := 0; next_conn := 0;
     fs := disk; trace := [] |}.

End Client.

(** ** Vocabulary of the statements *)

(** The effects of a sequence of initialisation attempts, consecutive
    attempts being separated by the ten-second delay. *)
Fixpoint delays_between (attempts : list (list Effect)) : list Effect :=
  match attempts with
  | [] => []
  | [a] => a
  | a :: rest => a ++ Slept 10000 :: delays_between rest
  end.

(** The effects of one attempt: backend A, then backend B if A failed; a
    backend that comes up warms up for two seconds. *)
Definition attempt_trace (a : list Effect) : Prop :=
  a = [] ∨ a = [Probed Picamera2; Slept 2000] ∨
  a = [Probed Picamera2; Probed LegacyPiCamera; Slept 2000] ∨
  a = [Probed Picamera2; Probed LegacyPiCamera].

Definition unavailable (a : Camera.Attempt) : Prop :=
  match a with
  | Camera.Probes (Camera.Down _) (Camera.Down _) | Camera.Escapes => True
  | _ => False
  end.


(** The stream workers of viewer [v] among the tasks of [w]. *)
Definition workers (v : string) (w : Client.World) : list Client.Task :=
  List.filter (λ k, match Client.coro k with
                    | Client.Streamer c _ => bool_decide (c = v)
                    | _ => false
                    end) (Client.tasks w).

(** An effect that, if it is a sent [image], [frame] or [status_update]
    envelope, reports a battery level of 100. *)
Definition reports_full_battery (e : Effect) : Prop :=
  match e with
  | Sent _ env =>
      match battery_field env with
      | Some b => b = Some 100%Z
      | None => True
      end
  | _ => True
  end.

(** *** Invariants of the event loop *)

(** Task identifiers are pairwise distinct and below the next one. *)
Definition tids_distinct (w : Client.World) : Prop :=
  NoDup (map Client.tid (Client.tasks w)) ∧
  Forall (λ k, (Client.tid k < Client.next_tid w)%nat) (Client.tasks w).

(** Every registry entry belongs to a worker of that viewer that has
    started and has not ended. *)
Definition registry_backed (w : Client.World) : Prop :=
  ∀ v, is_Some (Client.active_streams w !! v) →
       ∃ k, k ∈ Client.tasks w ∧ Client.coro k = Client.Streamer v true.

(** Tasks exist only once the camera object and a connection exist. *)
Definition equipped (w : Client.World) : Prop :=
  Client.tasks w ≠ [] →
  is_Some (Client.camera w) ∧ is_Some (Client.websocket w).

Definition well_formed (w : Client.World) : Prop :=
  tids_distinct w ∧ registry_backed w ∧ equipped w.

(** The camera object and the connection object, once there, stay. *)
Definition keeps_equipment (w w' : Client.World) : Prop :=
  (is_Some (Client.camera w) → is_Some (Client.camera w')) ∧
  (is_Some (Client.websocket w) → is_Some (Client.websocket w')).

Definition same_core (w w' : Client.World) : Prop :=
  Client.tasks w' = Client.tasks w ∧
  Client.next_tid w' = Client.next_tid w ∧
  Client.active_streams w' = Client.active_streams w ∧
  keeps_equipment w w'.

(** The three tasks [main_loop] creates. *)
Definition cohort_tasks (first_tid cohort_no : nat) : list Client.Task :=
  [ {| Client.tid := first_tid; Client.born := cohort_no;
       Client.coro := Client.Router Client.Receiving |};
    {| Client.tid := S first_tid; Client.born := cohort_no;
       Client.coro := Client.Pinger |};
    {| Client.tid := S (S first_tid); Client.born := cohort_no;
       Client.coro := Client.Reporter |} ].

(** What one scheduler event can do to the tasks and to the registry. *)
Inductive Shape (w w' : Client.World) : Prop :=
| sh_same :
    Client.tasks w' = Client.tasks w →
    Client.next_tid w' = Client.next_tid w →
    Client.active_streams w' = Client.active_streams w → Shape w w'
| sh_finish t self :
    Client.find_task t w = Some self →
    (∀ v b, Client.coro self = Client.Streamer v b →
            b = false ∧ ¬ (is_Some (Client.camera w) ∧ is_Some (Client.websocket w))) →
    Client.tasks w' = Client.tasks (Client.finish t w) →
    Client.next_tid w' = Client.next_tid w →
    Client.active_streams w' = Client.active_streams w → Shape w w'
| sh_spawn t self v :
    Client.find_task t w = Some self →
    Client.tasks w' = Client.tasks w ++
      [{| Client.tid := Client.next_tid w; Client.born := Client.born self;
          Client.coro := Client.Streamer v false |}] →
    Client.next_tid w' = S (Client.next_tid w) →
    Client.active_streams w' = Client.active_streams w → Shape w w'
| sh_stop v :
    is_Some (Client.active_streams w !! v) →
    Client.tasks w' = Client.tasks w →
    Client.next_tid w' = Client.next_tid w →
    Client.active_streams w' = <[v := false]> (Client.active_streams w) →
    Shape w w'
| sh_clear t self :
    Client.find_task t w = Some self →
    Client.coro self = Client.Router Client.Receiving →
    Client.tasks w' = Client.tasks (Client.resume_at t (Client.Router Client.Draining) w) →
    Client.next_tid w' = Client.next_tid w →
    Client.active_streams w' = ∅ → Shape w w'
| sh_cohort c :
    Client.tasks w' = Client.tasks w ++ cohort_tasks (Client.next_tid w) c →
    Client.next_tid w' = S (S (S (Client.next_tid w))) →
    Client.active_streams w' = Client.active_streams w →
    is_Some (Client.camera w') → is_Some (Client.websocket w') → Shape w w'
| sh_nested_cohort t self pc pc' c :
    Client.find_task t w = Some self →
    Client.coro self = Client.Router pc →
    Client.tasks w' = map (Client.retarget t (Client.Router pc'))
                        (Client.tasks w ++ cohort_tasks (Client.next_tid w) c) →
    Client.next_tid w' = S (S (S (Client.next_tid w))) →
    Client.active_streams w' = Client.active_streams w →
    is_Some (Client.camera w') → is_Some (Client.websocket w') → Shape w w'
| sh_start t self v :
    Client.find_task t w = Some self →
    Client.coro self = Client.Streamer v false →
    Client.tasks w' = Client.tasks (Client.resume_at t (Client.Streamer v true) w) →
    Client.next_tid w' = Client.next_tid w →
    Client.active_streams w' = <[v := true]> (Client.active_streams w) →
    Shape w w'
| sh_exit t self v b :
    Client.find_task t w = Some self →
    Client.coro self = Client.Streamer v b →
    Client.tasks w' = Client.tasks (Client.finish t w) →
    Client.next_tid w' = Client.next_tid w →
    Client.active_streams w' = delete v (Client.active_streams w) →
    Shape w w'.

(** *** Vocabulary of the further properties *)

(** The inter-attempt delays an object may still sleep: one per attempt
    below the budget that is still to come. *)
Definition retries_left (self : Camera.PiCamera) : nat :=
  Camera.max_init_attempts self - 1 - Camera.current_attempt self.

(** A driver is present whenever the object says it is initialised. *)
Definition driver_present (self : Camera.PiCamera) : Prop :=
  Camera.initialized self = true → is_Some (Camera.camera self).

(** The driver and the backend name agree. *)
Definition backend_agrees (self : Camera.PiCamera) : Prop :=
  (Camera.camera self = Some Picamera2 ∧
   Camera.camera_type self = Some Camera.picamera2) ∨
  (Camera.camera self = Some LegacyPiCamera ∧
   Camera.camera_type self = Some Camera.legacy).

(** What a method call keeps: the three
    constants are kept, a driver is present whenever the object is
    initialised, and the ten-second delays slept are paid out of
    [retries_left]. *)
Definition kept (self self' : Camera.PiCamera) (tr : list Effect) : Prop :=
  Camera.max_init_attempts self' = Camera.max_init_attempts self ∧
  Camera.no_camera self' = Camera.no_camera self ∧
  Camera.temp_dir self' = Camera.temp_dir self ∧
  (driver_present self → driver_present self') ∧
  (count (is_sleep 10000) tr + retries_left self' ≤ retries_left self)%nat.

(** The failure value of each kind of result. *)
Definition failed (r : Camera.Returned) : Prop :=
  match r with
  | Camera.Flag b => b = false
  | Camera.Path p => p = None
  | Camera.Raster f => f = None
  | Camera.Nothing => True
  end.

(** The first of the three legacy attempts at which a driver that writes
    [b i] at attempt [i] leaves a non-empty file. *)
Definition first_good (b : nat → list byte) : option nat :=
  match b 0%nat, b 1%nat, b 2%nat with
  | _ :: _, _, _ => Some 0%nat
  | [], _ :: _, _ => Some 1%nat
  | [], [], _ :: _ => Some 2%nat
  | [], [], [] => None
  end.

Definition silent (e : Effect) : Prop :=
  match e with Sent _ _ => False | _ => True end.

Definition device_id_of (e : Envelope) : string :=
  match e with
  | Image d _ _ _ _ | Frame d _ _ _ _ | StatusUpdate d _ _ _ | Ping d _ => d
  end.

(** Not a sent [image] or [frame] envelope. *)
Definition no_picture (e : Effect) : Prop :=
  match e with
  | Sent _ (Image _ _ _ _ _) | Sent _ (Frame _ _ _ _ _) => False
  | _ => True
  end.

(** The camera object exists and holds no driver. *)
Definition driverless (w : Client.World) : Prop :=
  ∃ cam, Client.camera w = Some cam ∧ Camera.camera cam = None.

(** What one scheduler event may add to the effects: an envelope goes
    over the current connection, which is open, carries the configured
    device identifier, and comes from the task that is resumed: a frame
    from a worker of the viewer it is tagged with, an image (never empty)
    from the router handling a [capture_request] and tagged with the
    requesting viewer, a status update from the status loop, a ping from
    the ping loop. *)
Definition permitted (w : Client.World) (ev : Client.Event) (e : Effect) : Prop :=
  match e with
  | Sent c env =>
      (∃ ws, Client.websocket w = Some ws ∧ Client.conn ws = c ∧
             Client.open ws = true) ∧
      device_id_of env = Client.DEVICE_ID (Client.cfg w) ∧
      ∃ t en self,
        ev = Client.Resume t en ∧ Client.find_task t w = Some self ∧
        match env with
        | Frame _ _ _ v _ => ∃ b, Client.coro self = Client.Streamer v b
        | Image _ bytes _ cid _ =>
            bytes ≠ [] ∧ Client.coro self = Client.Router Client.Receiving ∧
            ∃ m, Client.recv en = Client.Delivered m ∧
                 Client.msg_type m = Some "capture_request" ∧
                 cid = Client.msg_client_id m
        | StatusUpdate _ _ _ _ => Client.coro self = Client.Reporter
        | Ping _ _ => Client.coro self = Client.Pinger
        end
  | _ => True
  end.

(** An effect that, if it is a sent envelope, carries the device
    identifier [d] and, if it is an [image] envelope, a non-empty
    picture. *)
Definition labelled (d : string) (e : Effect) : Prop :=
  match e with
  | Sent _ env =>
      device_id_of env = d ∧
      match env with Image _ bytes _ _ _ => bytes ≠ [] | _ => True end
  | _ => True
  end.

(** What stays once it holds: the configuration, a token that counts as
    one, a camera object without a driver. *)
Definition settled (w w' : Client.World) : Prop :=
  Client.cfg w' = Client.cfg w ∧
  (is_Some (Client.truthy (Client.token w)) → Client.token w' = Client.token w) ∧
  (driverless w → driverless w').

(** ** Sample inputs *)

Definition picamera2_ready : Camera.PiCamera :=
  {| Camera.camera := Some Picamera2; Camera.initialized := true;
     Camera.camera_type := Some Camera.picamera2;
     Camera.temp_dir := "temp_images"; Camera.no_camera := false;
     Camera.max_init_attempts := 3; Camera.current_attempt := 1;
     Camera.streaming_config := None |}.

Definition legacy_ready : Camera.PiCamera :=
  {| Camera.camera := Some LegacyPiCamera; Camera.initialized := true;
     Camera.camera_type := Some Camera.legacy;
     Camera.temp_dir := "temp_images"; Camera.no_camera := false;
     Camera.max_init_attempts := 3; Camera.current_attempt := 1;
     Camera.streaming_config := None |}.

(** A driver that writes the given bytes at every capture call and never
    raises. *)
Definition still_writing (b : list byte) : Camera.Still :=
  {| Camera.filename := "temp_images/image_1700000000_0a1b2c3d.jpg";
     Camera.tmp_path := "/tmp/tmpk3v9x2.jpg";
     Camera.shots := λ _, {| Camera.written := Some b; Camera.raises := false |};
     Camera.rename_raises := false |}.

Definition hardware_up : nat → Camera.Attempt :=
  λ _, Camera.Probes Camera.Up Camera.Up.

Definition hardware_absent : nat → Camera.Attempt :=
  λ _, Camera.Probes (Camera.Down false) (Camera.Down false).

Definition sample_config : Client.Config :=
  {| Client.DEVICE_ID := "pi-0a1b2c3d"; Client.NO_CAMERA := false;
     Client.TEMP_IMAGE_DIR := "temp_images";
     Client.STREAM_RESOLUTION := (640%nat, 480%nat) |}.

(** An uneventful resumption: the hardware is present, the server accepts
    the registration and confirms the connection, nothing arrives within
    the receive timeout, sends succeed. *)
Definition quiet : Client.Env :=
  {| Client.now := 1700000000; Client.uptime := 42;
     Client.recv := Client.TimedOut; Client.send := Client.SendOk;
     Client.still := still_writing [x01]; Client.read_raises := false;
     Client.raster := Some [x02]; Client.hw := hardware_up;
     Client.registration := Client.Registered (Some "token-1");
     Client.connection := Client.Confirmed |}.

Definition receiving (r : Client.Recv) (e : Client.Env) : Client.Env :=
  {| Client.now := Client.now e; Client.uptime := Client.uptime e;
     Client.recv := r; Client.send := Client.send e;
     Client.still := Client.still e; Client.read_raises := Client.read_raises e;
     Client.raster := Client.raster e; Client.hw := Client.hw e;
     Client.registration := Client.registration e;
     Client.connection := Client.connection e |}.

Definition sending (r : Client.SendResult) (e : Client.Env) : Client.Env :=
  {| Client.now := Client.now e; Client.uptime := Client.uptime e;
     Client.recv := Client.recv e; Client.send := r;
     Client.still := Client.still e; Client.read_raises := Client.read_raises e;
     Client.raster := Client.raster e; Client.hw := Client.hw e;
     Client.registration := Client.registration e;
     Client.connection := Client.connection e |}.

Definition on_hardware (h : nat → Camera.Attempt) (e : Client.Env) : Client.Env :=
  {| Client.now := Client.now e; Client.uptime := Client.uptime e;
     Client.recv := Client.recv e; Client.send := Client.send e;
     Client.still := Client.still e; Client.read_raises := Client.read_raises e;
     Client.raster := Client.raster e; Client.hw := h;
     Client.registration := Client.registration e;
     Client.connection := Client.connection e |}.

Definition request (ty : string) (client_id : option string) : Client.Recv :=
  Client.Delivered {| Client.msg_type := Some ty;
                      Client.msg_client_id := client_id;
                      Client.msg_message := None |}.

(** The process once [main] has run up to the [asyncio.gather] of the
    first cohort: camera ready, connection 0 open, the router (task 0),
    the ping loop (task 1) and the status loop (task 2) created. *)
Definition serving : Client.World :=
  Client.run (Client.boot sample_config ∅) [Client.ResumeMain quiet].

(** * Properties *)

(** ** Camera initialisation *)

Section Initialize.
Import Camera.

(** The recursive equation of [initialize], as the source reads. *)
Lemma initialize_unfold self hw :
  initialize self hw =
  if no_camera self then (false, self, [])
  else
    let '(ok, self1, tr) :=
      try_backends (next_attempt self) (hw (S (current_attempt self))) in
    if ok then (true, self1, tr)
    else if (current_attempt self1 <? max_init_attempts self1)%nat then
      let r := initialize self1 hw in
      (r.1.1, r.1.2, tr ++ Slept 10000 :: r.2)
    else (false, self1, tr).
Proof.
  funelim (initialize self hw).
  all: try match goal with H : no_camera _ = _ |- _ => rewrite H end.
  all: try match goal with H : try_backends _ _ = _ |- _ => rewrite H end.
  all: try match goal with H : (_ <? _)%nat = _ |- _ => rewrite H end.
  all: try reflexivity.
Qed.

Lemma try_backends_counters self a :
  current_attempt (try_backends self a).1.2 = current_attempt self ∧
  max_init_attempts (try_backends self a).1.2 = max_init_attempts self ∧
  no_camera (try_backends self a).1.2 = no_camera self.
Proof. destruct a as [[|[]] [|[]]|]; done. Qed.

Lemma try_backends_trace self a : attempt_trace (try_backends self a).2.
Proof. unfold attempt_trace. destruct a as [[|[]] [|[]]|]; simpl; tauto. Qed.

Lemma try_backends_unavailable self a :
  unavailable a → (try_backends self a).1.1 = false.
Proof. destruct a as [[|[]] [|[]]|]; simpl; tauto. Qed.

Lemma delays_between_cons a rest :
  rest ≠ [] → delays_between (a :: rest) = a ++ Slept 10000 :: delays_between rest.
Proof. destruct rest; done. Qed.

(** Every call is a non-empty sequence of attempts (empty only for a
    disabled camera), each raising the counter by one. *)
Lemma initialize_attempts n : ∀ self hw,
  (max_init_attempts self - current_attempt self ≤ n)%nat →
  ∃ attempts,
    (initialize self hw).2 = delays_between attempts ∧
    Forall attempt_trace attempts ∧
    (length attempts ≤ Nat.max 1 (max_init_attempts self - current_attempt self))%nat ∧
    current_attempt (initialize self hw).1.2
      = (current_attempt self + length attempts)%nat ∧
    max_init_attempts (initialize self hw).1.2 = max_init_attempts self ∧
    no_camera (initialize self hw).1.2 = no_camera self ∧
    (no_camera self = false → attempts ≠ []) ∧
    ((∀ k, unavailable (hw k)) → (initialize self hw).1.1 = false) ∧
    ((∀ k, unavailable (hw k)) → no_camera self = false →
     length attempts = Nat.max 1 (max_init_attempts self - current_attempt self)).
Proof.
  induction n as [|n IH]; intros self hw Hn; rewrite initialize_unfold;
    destruct (no_camera self) eqn:Hnc.
  1,3: exists []; simpl; repeat split; auto with lia; done.
  all: pose proof (try_backends_counters (next_attempt self)
                     (hw (S (current_attempt self)))) as (Hc & Hm & Hd);
    pose proof (try_backends_trace (next_attempt self)
                  (hw (S (current_attempt self)))) as Ht;
    pose proof (try_backends_unavailable (next_attempt self)
                  (hw (S (current_attempt self)))) as Hu;
    destruct (try_backends _ _) as [[ok self1] tr]; simpl in Hc, Hm, Hd, Ht, Hu.
  all: destruct ok.
  1,3: exists [tr]; simpl; split_and!; auto with lia; try congruence;
    intros H; specialize (Hu (H _)); done.
  all: destruct (_ <? _)%nat eqn:Hlt;
    [apply Nat.ltb_lt in Hlt | apply Nat.ltb_ge in Hlt].
  1: lia.
  1,3: exists [tr]; simpl; split_and!; auto with lia; congruence.
  destruct (IH self1 hw) as (rest & E1 & E2 & E3 & E4 & E5 & E6 & E7 & E8 & E9); [lia|].
  assert (rest ≠ []) by (apply E7; congruence).
  exists (tr :: rest). simpl fst; simpl snd.
  rewrite delays_between_cons, E1 by done.
  split_and!; auto; simpl; try lia; try congruence.
  intros Hall Hf. rewrite E9; auto; try congruence. lia.
Qed.


Lemma count_app p tr1 tr2 : count p (tr1 ++ tr2) = (count p tr1 + count p tr2)%nat.
Proof. unfold count. by rewrite List.filter_app, length_app. Qed.

Lemma attempt_trace_no_delay a : attempt_trace a → count (is_sleep 10000) a = 0%nat.
Proof. intros [-> | [-> | [-> | ->]]]; reflexivity. Qed.

Lemma delays_between_count attempts :
  Forall attempt_trace attempts →
  count (is_sleep 10000) (delays_between attempts) = (length attempts - 1)%nat.
Proof.
  induction 1 as [|a rest Ha _ IH]; [done|].
  destruct rest as [|b rest]; [by apply attempt_trace_no_delay|].
  rewrite delays_between_cons, count_app, attempt_trace_no_delay by done.
  change (count _ (Slept 10000 :: ?l)) with (S (count (is_sleep 10000) l)).
  rewrite IH. simpl. lia.
Qed.




(** A camera found absent at every probe: the whole run of a fresh
    object. *)
Example initialize_hardware_absent :
  initialize (__init__ false "temp_images") (λ _, Probes (Down false) (Down false))
  = (false,
     {| camera := None; initialized := false; camera_type := None;
        temp_dir := "temp_images"; no_camera := false;
        max_init_attempts := 3; current_attempt := 3;
        streaming_config := None |},
     [Probed Picamera2; Probed LegacyPiCamera; Slept 10000;
      Probed Picamera2; Probed LegacyPiCamera; Slept 10000;
      Probed Picamera2; Probed LegacyPiCamera]).
Proof. vm_compute. reflexivity. Qed.

Lemma initialize_counter_monotone self hw :
  (current_attempt self ≤ current_attempt (initialize self hw).1.2)%nat.
Proof.
  destruct (initialize_attempts _ self hw (Nat.le_refl _))
    as (attempts & _ & _ & _ & E4 & _). lia.
Qed.

Lemma cleanup_counter self partial fs :
  current_attempt (cleanup self partial fs).1 = current_attempt self.
Proof. unfold cleanup. destruct (camera self), (_ && _); done. Qed.

Lemma capture_image_counter self fs env hw :
  (current_attempt self ≤ current_attempt (capture_image self fs env hw).1.1.2)%nat.
Proof.
  unfold capture_image. destruct (_ || _); [done|].
  destruct (capture_body self fs env) as [[[p|] fs1] tr]; [done|].
  pose proof (cleanup_counter self true fs1) as Hc.
  destruct (cleanup self true fs1) as [self1 fs2]; simpl in Hc.
  pose proof (initialize_counter_monotone self1 hw) as Hi.
  destruct (initialize self1 hw) as [[r self2] tr2]; simpl in *. lia.
Qed.

Lemma capture_frame_counter self res raster :
  current_attempt (capture_frame self res raster).1.2 = current_attempt self.
Proof.
  unfold capture_frame. destruct (_ || _); [done|].
  destruct (camera_type self) as [[]|]; try done;
    destruct raster; try done; simpl; by destruct (negb _).
Qed.

(** C10. The attempt counter is raised by every [initialize] call on a
    camera-bearing object and no method lowers it ([cleanup],
    [capture_image], [capture_frame], [initialize]), so the budget of
    three belongs to the object: once the counter has reached three, a
    call to [initialize] consists of exactly one backend-pair attempt,
    sleeps no ten seconds, raises the counter by one, and returns
    [False] when no backend comes up. *)
Theorem C10_attempt_budget_is_per_object (self : PiCamera) (hw : nat → Attempt) :
  no_camera self = false →
  max_init_attempts self = 3%nat →
  (current_attempt self < current_attempt (initialize self hw).1.2)%nat ∧
  (∀ partial fs,
     current_attempt (cleanup self partial fs).1 = current_attempt self) ∧
  (∀ fs env,
     (current_attempt self ≤ current_attempt (capture_image self fs env hw).1.1.2)%nat) ∧
  (∀ res raster,
     current_attempt (capture_frame self res raster).1.2 = current_attempt self) ∧
  ((3 ≤ current_attempt self)%nat →
     initialize self hw
       = try_backends (next_attempt self) (hw (S (current_attempt self))) ∧
     current_attempt (initialize self hw).1.2 = S (current_attempt self) ∧
     count (is_sleep 10000) (initialize self hw).2 = 0%nat ∧
     (unavailable (hw (S (current_attempt self))) →
      (initialize self hw).1.1 = false)).
Proof.
  intros Hnc Hmax. split_and!.
  - destruct (initialize_attempts _ self hw (Nat.le_refl _))
      as (attempts & _ & _ & _ & E4 & _ & _ & E7 & _).
    specialize (E7 Hnc). destruct attempts; [done|]. simpl in E4. lia.
  - apply cleanup_counter.
  - intros. apply capture_image_counter.
  - apply capture_frame_counter.
  - intros Hspent.
    assert (Hone : initialize self hw
              = try_backends (next_attempt self) (hw (S (current_attempt self)))).
    { rewrite initialize_unfold, Hnc.
      pose proof (try_backends_counters (next_attempt self)
                    (hw (S (current_attempt self)))) as (Hc & Hm & _).
      destruct (try_backends _ _) as [[[] self1] tr]; [done|].
      simpl in Hc, Hm.
      destruct (_ <? _)%nat eqn:Hlt; [|done].
      apply Nat.ltb_lt in Hlt. lia. }
    rewrite Hone. split_and!; [done| | |].
    + by destruct (try_backends_counters (next_attempt self)
                     (hw (S (current_attempt self)))) as (-> & _).
    + apply attempt_trace_no_delay, try_backends_trace.
    + apply try_backends_unavailable.
Qed.

(** The second call on an object whose first call spent the budget. *)
Lemma C10_attempt_budget_is_per_object_witness :
  let spent := (initialize (__init__ false "temp_images")
                  (λ _, Probes (Down false) (Down false))).1.2 in
  no_camera spent = false ∧ max_init_attempts spent = 3%nat ∧
  current_attempt spent = 3%nat ∧
  initialize spent (λ _, Probes (Down false) (Down false))
    = try_backends (next_attempt spent) (Probes (Down false) (Down false)) ∧
  (initialize spent (λ _, Probes (Down false) (Down false))).1.1 = false.
Proof.
  intros spent.
  assert (Hn : no_camera spent = false) by (vm_compute; reflexivity).
  assert (Hm : max_init_attempts spent = 3%nat) by (vm_compute; reflexivity).
  assert (Hc : (3 ≤ current_attempt spent)%nat) by (vm_compute; lia).
  destruct (C10_attempt_budget_is_per_object spent
              (λ _, Probes (Down false) (Down false)) Hn Hm)
    as (_ & _ & _ & _ & Hspent).
  destruct (Hspent Hc) as (E1 & _ & _ & E4).
  split_and!; [exact Hn | exact Hm | vm_compute; reflexivity | exact E1 |].
  apply E4. exact I.
Defined.

End Initialize.

(** ** Still capture *)

Section CaptureStill.
Import Camera.

Lemma exists_nonempty_spec (fs : FS) p :
  exists_nonempty fs p = true ↔ ∃ b, fs !! p = Some b ∧ b ≠ [].
Proof.
  unfold exists_nonempty. destruct (fs !! p) as [[|x b]|]; split;
    try done; try (intros (b' & [= <-] & Hb); done); try (intros (? & ? & ?); done).
  intros _. by exists (x :: b).
Qed.

(** The [picamera2] branch: on failure the file system is the initial
    one without the scratch file; on success the scratch file has
    become the final file, with the bytes the driver wrote. *)
Lemma capture_picamera2_spec (fs : FS) env :
  (capture_picamera2 fs env).1 = false ∧
    (capture_picamera2 fs env).2 = delete (tmp_path env) fs
  ∨ ∃ b, b ≠ [] ∧ written (shots env 0) = Some b ∧
      (capture_picamera2 fs env).1 = true ∧
      (capture_picamera2 fs env).2
        = <[filename env := b]> (delete (tmp_path env) fs).
Proof.
  unfold capture_picamera2, shoot, rename, exists_nonempty.
  destruct (shots env 0) as [[b|] r]; simpl;
    rewrite ?insert_insert_eq, ?lookup_insert_eq, ?delete_insert_eq;
    destruct r; auto.
  destruct b as [|x b]; auto.
  destruct (rename_raises env); auto.
  right. by exists (x :: b).
Qed.

(** Whatever the backend, a path is returned only for a file that
    exists and is not empty. *)
Lemma capture_body_returns_nonempty self (fs : FS) env p :
  (capture_body self fs env).1.1 = Some p →
  p = filename env ∧
  exists_nonempty (capture_body self fs env).1.2 p = true.
Proof.
  unfold capture_body.
  destruct (camera_type self) as [[]|];
    [destruct (capture_picamera2 fs env) as [ok fs1]
    |destruct (capture_legacy fs env) as [[ok fs1] tr]| |];
    simpl; try done.
  all: destruct ok; simpl; try done.
  all: destruct (exists_nonempty fs1 (filename env)) eqn:E; simpl; try done.
  all: by intros [= <-].
Qed.

Lemma capture_image_ready self (fs : FS) env hw :
  no_camera self = false → initialized self = true → is_Some (camera self) →
  capture_image self fs env hw =
    match capture_body self fs env with
    | (Some path, fs1, tr) => (Some path, self, fs1, tr)
    | (None, fs1, tr) =>
        let '(self1, fs2) := cleanup self true fs1 in
        let '(_, self2, tr2) := initialize self1 hw in
        (None, self2, fs2, tr ++ Slept 2000 :: tr2)
    end.
Proof.
  intros Hn Hi Hc. unfold capture_image. rewrite Hn, Hi. simpl.
  by rewrite bool_decide_true.
Qed.

Lemma legacy_attempts_touches_final_path_only todo (fs : FS) env p :
  p ≠ filename env → (legacy_attempts todo fs env).1.2 !! p = fs !! p.
Proof.
  intros Hp. revert fs. induction todo as [|a todo IH]; intros fs; [done|].
  simpl.
  assert (Hs : shoot fs (filename env) (shots env a) !! p = fs !! p).
  { unfold shoot. destruct (written _); [|done]. by rewrite lookup_insert_ne. }
  destruct (_ && _); [done|].
  destruct (_ <? _)%nat; [|done].
  specialize (IH (shoot fs (filename env) (shots env a))).
  destruct (legacy_attempts todo _ env) as [[ok fs2] tr]. simpl in *. congruence.
Qed.

Lemma capture_image_artifact self (fs : FS) env hw p :
  (capture_image self fs env hw).1.1.1 = Some p →
  p = filename env ∧ exists_nonempty (capture_image self fs env hw).1.2 p = true.
Proof.
  unfold capture_image. destruct (_ || _); [done|].
  pose proof (capture_body_returns_nonempty self fs env p) as Hb.
  destruct (capture_body self fs env) as [[[q|] fs1] tr]; [simpl in *; done|].
  destruct (cleanup self true fs1) as [self1 fs2].
  destruct (initialize self1 hw) as [[r self2] tr2]. simpl. done.
Qed.

(** C5 as stated fails on the legacy backend: there the driver writes
    straight to the published path, and when it leaves an empty file at
    each of the three attempts the call fails with a zero-byte file at
    the published path. *)
Lemma C5_counterexample_legacy_leaves_empty_file :
  let out := capture_image legacy_ready ∅ (still_writing []) hardware_up in
  out.1.1.1 = None ∧
  out.1.2 !! filename (still_writing []) = Some [] ∧
  out.1.2 !! tmp_path (still_writing []) = None.
Proof. vm_compute. repeat split. Qed.

(** C5, amended.  On the picamera2 backend the capture goes to the
    scratch file, is checked to be non-empty and is then renamed to the
    final path: after the call the scratch file is gone; on failure the
    file system is the initial one (nothing at the published path); on
    success the published file holds the non-empty bytes the driver
    wrote to the scratch file; a zero-byte file is never at the
    published path.  On the legacy backend there is no scratch file: the
    call changes the file system at the final path only.  On every
    backend a path is returned only for a file that exists and is not
    empty. *)
Theorem C5_picamera2_publishes_via_scratch self (fs : FS) env hw :
  no_camera self = false → initialized self = true → is_Some (camera self) →
  fs !! filename env = None →
  tmp_path env ≠ filename env →
  let out := capture_image self fs env hw in
  (camera_type self = Some picamera2 →
     out.1.2 !! tmp_path env = None ∧
     out.1.2 !! filename env ≠ Some [] ∧
     (out.1.1.1 = None → out.1.2 = delete (tmp_path env) fs) ∧
     (out.1.1.1 ≠ None →
      ∃ b, b ≠ [] ∧ written (shots env 0) = Some b ∧
           out.1.1.1 = Some (filename env) ∧
           out.1.2 = <[filename env := b]> (delete (tmp_path env) fs))) ∧
  (camera_type self = Some legacy →
     ∀ p, p ≠ filename env → out.1.2 !! p = fs !! p) ∧
  (∀ p, out.1.1.1 = Some p →
        p = filename env ∧ exists_nonempty out.1.2 p = true).
Proof.
  intros Hn Hi Hc Hfresh Hne out. split_and!; [| |apply capture_image_artifact];
    cycle 1.
  { intros Hty p Hp. subst out. rewrite capture_image_ready by done.
    unfold capture_body, capture_legacy. rewrite Hty.
    pose proof (legacy_attempts_touches_final_path_only
                  (seq 0 max_attempts) fs env p Hp) as Hl.
    destruct (legacy_attempts _ fs env) as [[ok fs1] tr]. simpl in Hl.
    destruct (ok && _); simpl; [done|].
    unfold cleanup. simpl.
    by destruct (initialize _ hw) as [[r self2] tr2]. }
  intros Hty. subst out. rewrite capture_image_ready by done.
  unfold capture_body. rewrite Hty.
  destruct (capture_picamera2_spec fs env) as [[E1 E2]|(b & Hb & Hw & E1 & E2)];
    destruct (capture_picamera2 fs env) as [ok fs1]; simpl in E1, E2; subst.
  - simpl. unfold cleanup. simpl.
    destruct (camera self) eqn:Ecam; [|by destruct Hc].
    destruct (initialize (set_released self) hw) as [[r self2] tr2]. simpl.
    split_and!; [apply lookup_delete_eq| |done|done].
    rewrite lookup_delete_ne by done. by rewrite Hfresh.
  - assert (Hex : exists_nonempty
              (<[filename env:=b]> (delete (tmp_path env) fs)) (filename env) = true).
    { apply exists_nonempty_spec. exists b. by rewrite lookup_insert_eq. }
    simpl. rewrite Hex. simpl.
    split_and!.
    + rewrite lookup_insert_ne by done. apply lookup_delete_eq.
    + rewrite lookup_insert_eq. congruence.
    + done.
    + intros _. by exists b.
Qed.

Lemma C5_picamera2_publishes_via_scratch_witness :
  let env := still_writing [x01] in
  let out := capture_image picamera2_ready ∅ env hardware_up in
  out.1.2 !! tmp_path env = None ∧
  out.1.2 !! filename env ≠ Some [] ∧
  out.1.1.1 = Some (filename env).
Proof.
  intros env out.
  destruct (C5_picamera2_publishes_via_scratch picamera2_ready ∅ env hardware_up)
    as [Hp _].
  - reflexivity.
  - reflexivity.
  - simpl. eauto.
  - reflexivity.
  - vm_compute. discriminate.
  - destruct (Hp eq_refl) as (H1 & H2 & _ & _).
    split_and!; [exact H1 | exact H2 | vm_compute; reflexivity].
Defined.

End CaptureStill.

(** ** The session *)

Section Session.
Import Client.

Ltac crush :=
  repeat (simpl in *; try done; case_match; simplify_eq/=).

Lemma find_task_Some t w self :
  find_task t w = Some self → tid self = t ∧ self ∈ tasks w.
Proof.
  unfold find_task. intros H. apply List.find_some in H as [Hin Heq].
  split; [by apply Nat.eqb_eq in Heq | by apply list_elem_of_In].
Qed.

Lemma step_resume w t env self :
  find_task t w = Some self →
  step w (Resume t env) =
    match coro self with
    | Router pc => handle_server_messages self pc w env
    | Pinger => ping_server self w env
    | Reporter => send_status_updates self w env
    | Streamer client_id started =>
        start_video_stream self client_id started w env
    end.
Proof. intros H. simpl. by rewrite H. Qed.

Lemma dispatch_stop_stream self cid w env :
  dispatch self {| msg_type := Some "stop_stream"; msg_client_id := cid;
                   msg_message := None |} w env
  = match truthy cid with
    | Some v =>
        match active_streams w !! v with
        | Some _ => set_active_streams (<[v := false]> (active_streams w)) w
        | None => w
        end
    | None => w
    end.
Proof. unfold dispatch. simpl. repeat (case_decide; [done|]). done. Qed.

Lemma dispatch_stream_request self cid w env :
  dispatch self {| msg_type := Some "stream_request"; msg_client_id := cid;
                   msg_message := None |} w env
  = match truthy cid with
    | Some v => (create_task (born self) (Streamer v false) w).2
    | None => w
    end.
Proof. unfold dispatch. simpl. repeat (case_decide; [done|]). done. Qed.

Lemma dispatch_capture_request self cid w env :
  dispatch self {| msg_type := Some "capture_request"; msg_client_id := cid;
                   msg_message := None |} w env
  = (capture_and_send_image cid w env).2.
Proof. reflexivity. Qed.

(** C8. A [stop_stream] envelope handled by the router writes the
    stop flag ([False]) over the entry of its viewer if that entry is
    present and changes nothing otherwise; it creates and ends no task,
    produces no effect and removes no entry, and handling the same
    envelope again leaves the state as it is. *)
Theorem C8_stop_stream_idempotent (w : World) (t : nat) (self : Task)
    (env : Env) (cid : option string) :
  find_task t w = Some self → coro self = Router Receiving →
  stop_event w = false →
  recv env = request "stop_stream" cid →
  let w' := step w (Resume t env) in
  w' = match truthy cid with
       | Some v =>
           match active_streams w !! v with
           | Some _ => set_active_streams (<[v := false]> (active_streams w)) w
           | None => w
           end
       | None => w
       end ∧
  tasks w' = tasks w ∧ trace w' = trace w ∧
  dom (active_streams w') = dom (active_streams w) ∧
  step w' (Resume t env) = w'.
Proof.
  intros Hf Hc Hs Hr w'.
  assert (E : w' = match truthy cid with
       | Some v =>
           match active_streams w !! v with
           | Some _ => set_active_streams (<[v := false]> (active_streams w)) w
           | None => w
           end
       | None => w
       end).
  { subst w'. rewrite (step_resume _ _ _ _ Hf), Hc. simpl.
    rewrite Hs, Hr. apply dispatch_stop_stream. }
  assert (Ht : tasks w' = tasks w) by (rewrite E; crush).
  assert (Hs' : stop_event w' = false) by (rewrite E; crush).
  split_and!; [exact E | exact Ht | rewrite E; crush | |].
  - rewrite E. destruct (truthy cid) as [v|]; [|done].
    destruct (active_streams w !! v) eqn:Hv; [|done]. simpl.
    apply dom_insert_lookup_L. eauto.
  - assert (Hf' : find_task t w' = Some self)
      by (unfold find_task; by rewrite Ht).
    rewrite (step_resume _ _ _ _ Hf'), Hc. simpl.
    rewrite Hs', Hr. unfold request. cbv beta iota.
    rewrite dispatch_stop_stream.
    destruct (truthy cid) as [v|]; [|done].
    clearbody w'. subst w'.
    destruct (active_streams w !! v) eqn:Hv; simpl.
    + rewrite lookup_insert_eq. unfold set_active_streams. simpl.
      by rewrite insert_insert_eq.
    + by rewrite Hv.
Qed.

Lemma C8_stop_stream_idempotent_witness :
  let w := run serving [Resume 0 (receiving (request "stream_request" (Some "X")) quiet);
                        Resume 3 quiet] in
  let env := receiving (request "stop_stream" (Some "X")) quiet in
  active_streams w !! "X" = Some true ∧
  active_streams (step w (Resume 0 env)) !! "X" = Some false ∧
  step (step w (Resume 0 env)) (Resume 0 env) = step w (Resume 0 env).
Proof.
  intros w env.
  destruct (C8_stop_stream_idempotent w 0
              {| tid := 0; born := 1; coro := Router Receiving |}
              env (Some "X")) as (_ & _ & _ & _ & Hidem).
  - vm_compute. reflexivity.
  - reflexivity.
  - vm_compute. reflexivity.
  - reflexivity.
  - split_and!; [vm_compute; reflexivity | vm_compute; reflexivity | exact Hidem].
Defined.

(** C1 as stated fails: the router makes no registry check.  With a
    worker for viewer "A" running and its entry present, a second
    [stream_request] for "A" creates a second worker, which starts and
    streams alongside the first. *)
Lemma C1_counterexample_duplicate_request_spawns :
  let req := Resume 0 (receiving (request "stream_request" (Some "A")) quiet) in
  let w := run serving [req; Resume 3 quiet] in
  let w' := run w [req; Resume 4 quiet] in
  active_streams w !! "A" = Some true ∧
  workers "A" w = [{| tid := 3; born := 1; coro := Streamer "A" true |}] ∧
  workers "A" w' = [{| tid := 3; born := 1; coro := Streamer "A" true |};
                    {| tid := 4; born := 1; coro := Streamer "A" true |}].
Proof. vm_compute. repeat split. Qed.

(** C1, amended.  A [stream_request] whose [client_id] is a non-empty
    string always creates a new worker task for that viewer, in the
    router's cohort, whether or not the viewer is in the registry, and
    leaves the registry as it is; a [stream_request] without a
    [client_id] (absent or empty) changes nothing. *)
Theorem C1_stream_request_always_spawns (w : World) (t : nat) (self : Task)
    (env : Env) (cid : option string) :
  find_task t w = Some self → coro self = Router Receiving →
  stop_event w = false →
  recv env = request "stream_request" cid →
  let w' := step w (Resume t env) in
  match truthy cid with
  | Some v =>
      tasks w' = tasks w ++ [{| tid := next_tid w; born := born self;
                                coro := Streamer v false |}] ∧
      active_streams w' = active_streams w
  | None => w' = w
  end.
Proof.
  intros Hf Hc Hs Hr w'. subst w'.
  rewrite (step_resume _ _ _ _ Hf), Hc. simpl.
  rewrite Hs, Hr. unfold request. cbv beta iota.
  rewrite dispatch_stream_request.
  by destruct (truthy cid).
Qed.

Lemma C1_stream_request_always_spawns_witness :
  let req := Resume 0 (receiving (request "stream_request" (Some "A")) quiet) in
  let w := run serving [req; Resume 3 quiet] in
  active_streams w !! "A" = Some true ∧
  tasks (step w req)
    = tasks w ++ [{| tid := 4; born := 1; coro := Streamer "A" false |}].
Proof.
  intros req w. split; [vm_compute; reflexivity|].
  refine (proj1 (C1_stream_request_always_spawns w 0
                   {| tid := 0; born := 1; coro := Router Receiving |}
                   (receiving (request "stream_request" (Some "A")) quiet)
                   (Some "A") _ _ _ _)).
  - vm_compute. reflexivity.
  - reflexivity.
  - vm_compute. reflexivity.
  - reflexivity.
Defined.

(** C2 as claimed fails on the code, and the code misses what its own
    success path does: the removal of the temporary file is the last
    statement of the [try] block, so a failing send skips it.  Here the
    capture produced the file, the send raised [ConnectionClosed], the
    call returned [False] and the file is still on disk. *)
Lemma C2_artifact_survives_failed_send :
  let env := sending SendClosed quiet in
  let out := capture_and_send_image (Some "viewer-1") serving env in
  camera serving = Some picamera2_ready ∧
  websocket serving = Some {| conn := 0; open := true |} ∧
  (Camera.capture_image picamera2_ready (fs serving) (still env) (hw env)).1.1.1
    = Some (Camera.filename (still env)) ∧
  out.1 = false ∧
  fs out.2 !! Camera.filename (still env) = Some [x01].
Proof. vm_compute. repeat split. Qed.

(** The same through the router, and the success path for contrast. *)
Example capture_request_send_fails :
  let env := receiving (request "capture_request" (Some "viewer-1"))
               (sending SendError quiet) in
  fs (step serving (Resume 0 env)) !! Camera.filename (still env) = Some [x01].
Proof. vm_compute. reflexivity. Qed.

Example capture_request_send_succeeds :
  let env := receiving (request "capture_request" (Some "viewer-1")) quiet in
  fs (step serving (Resume 0 env)) !! Camera.filename (still env) = None.
Proof. vm_compute. reflexivity. Qed.

(** In general: the artifact is gone after a successful call and is
    still there, as captured, after a failed one. *)
Lemma capture_and_send_image_artifact client_id w env cam ws p cam1 fs1 tr :
  camera w = Some cam → websocket w = Some ws →
  Camera.capture_image cam (fs w) (still env) (hw env) = (Some p, cam1, fs1, tr) →
  let out := capture_and_send_image client_id w env in
  (out.1 = true → fs out.2 !! p = None) ∧
  (out.1 = false → fs out.2 !! p = fs1 !! p).
Proof.
  intros Hcam Hws Hcap out. subst out.
  unfold capture_and_send_image, ws_send. rewrite Hcam, Hws, Hcap. simpl.
  unfold truthy. destruct (decide (p = "")); [done|].
  destruct (read_raises env); [done|].
  destruct (fs1 !! p) eqn:Hp; [|simpl; by rewrite Hp].
  simpl. rewrite Hws. destruct (open ws); [|simpl; by rewrite Hp].
  destruct (send env); simpl; rewrite ?Hp; split; try done.
  intros _. apply lookup_delete_eq.
Qed.

Lemma filter_keep (l : list Task) t k :
  k ∈ l → tid k ≠ t → k ∈ List.filter (λ k, negb (tid k =? t)%nat) l.
Proof.
  intros Hk Ht. apply list_elem_of_In, List.filter_In.
  split; [by apply list_elem_of_In|].
  apply negb_true_iff, Nat.eqb_neq. done.
Qed.

Lemma map_keep (l : list Task) t c k :
  k ∈ l → tid k ≠ t → k ∈ map (retarget t c) l.
Proof.
  intros Hk Ht. apply list_elem_of_fmap. exists k. split; [|done].
  unfold retarget. apply Nat.eqb_neq in Ht. by rewrite Ht.
Qed.

Lemma map_tids (l : list Task) t c :
  map tid (map (retarget t c) l) = map tid l.
Proof.
  rewrite List.map_map. apply List.map_ext. intros k. unfold retarget.
  by destruct (_ =? _)%nat.
Qed.

Lemma find_resume_at t c w self :
  find_task t w = Some self →
  find_task t (resume_at t c w)
    = Some {| tid := tid self; born := born self; coro := c |}.
Proof.
  unfold find_task, resume_at. simpl.
  induction (tasks w) as [|k l IH]; [done|]. simpl.
  assert (Ht : tid (retarget t c k) = tid k)
    by (unfold retarget; by destruct (_ =? _)%nat).
  rewrite Ht. destruct (tid k =? t)%nat eqn:E; [|done].
  intros [= ->]. unfold retarget. by rewrite E.
Qed.

Ltac keep :=
  intros; simpl; repeat first [apply filter_keep | apply map_keep]; done.

(** C6 as stated fails: nothing is cancelled and the connection is not
    closed.  The connection is lost; the router reads
    [ConnectionClosed], clears the registry, sleeps five seconds and
    re-enters [main_loop], which opens connection 1 and creates the
    second cohort (tasks 3, 4, 5).  The ping and status tasks of the
    first cohort (tasks 1, 2) are still there, and the old ping task
    goes on pinging over the new connection. *)
Lemma C6_counterexample_keepalive_outlives_cohort :
  let evs := [PeerClosed; Resume 0 (receiving ConnectionClosed quiet);
              Resume 0 quiet; Resume 1 quiet] in
  let w := run serving evs in
  stop_event w = false ∧ cohort w = 2%nat ∧
  tasks w = [{| tid := 0; born := 1; coro := Router (Gathering [3; 4; 5]%nat) |};
             {| tid := 1; born := 1; coro := Pinger |};
             {| tid := 2; born := 1; coro := Reporter |};
             {| tid := 3; born := 2; coro := Router Receiving |};
             {| tid := 4; born := 2; coro := Pinger |};
             {| tid := 5; born := 2; coro := Reporter |}] ∧
  trace w = trace serving ++
            [Slept 5000; Sent 1 (Ping "pi-0a1b2c3d" 1700000000); Slept 30000].
Proof. vm_compute. repeat split. Qed.

(** C6, amended.  When the router leaves its loop although the stop
    event is clear (connection closed, or any other exception), it
    clears the registry, sleeps five seconds and, at its next
    resumption, runs [main_loop] from inside its own task; it cancels no
    task and leaves the connection as it is.  When a keep-alive task or
    a stream worker runs or ends, every other task stays and the
    connection and [main] are left as they are. *)
Theorem C6_router_exit_restarts_without_cancelling (w : World) (t : nat)
    (self : Task) (env : Env) :
  find_task t w = Some self →
  let w' := step w (Resume t env) in
  (coro self = Router Receiving → stop_event w = false →
   recv env = ConnectionClosed ∨ recv env = Faulted →
     active_streams w' = ∅ ∧
     trace w' = trace w ++ [Slept 5000] ∧
     websocket w' = websocket w ∧
     map tid (tasks w') = map tid (tasks w) ∧
     (∀ k, k ∈ tasks w → tid k ≠ t → k ∈ tasks w') ∧
     (∀ env', step w' (Resume t env') =
              match main_loop w' env' with
              | (Some children, w1) => resume_at t (Router (Gathering children)) w1
              | (None, w1) => finish t w1
              end)) ∧
  ((∀ pc, coro self ≠ Router pc) →
     websocket w' = websocket w ∧ main_task w' = main_task w ∧
     (∀ k, k ∈ tasks w → tid k ≠ t → k ∈ tasks w')).
Proof.
  intros Hf w'. destruct (find_task_Some _ _ _ Hf) as [Htid Hin].
  subst w'. split.
  - intros Hc Hs Hr.
    assert (E : step w (Resume t env)
                = resume_at t (Router Draining)
                    (emit [Slept 5000] (set_active_streams ∅ w))).
    { rewrite (step_resume _ _ _ _ Hf), Hc. simpl. rewrite Hs, Htid.
      by destruct Hr as [-> | ->]. }
    rewrite E. split_and!; try done.
    + apply map_tids.
    + keep.
    + intros env'.
      assert (Hf' : find_task t (resume_at t (Router Draining)
                       (emit [Slept 5000] (set_active_streams ∅ w)))
                    = Some {| tid := tid self; born := born self;
                              coro := Router Draining |})
        by (by apply find_resume_at).
      rewrite (step_resume _ _ _ _ Hf'). simpl. by rewrite Htid.
  - rewrite (step_resume _ _ _ _ Hf).
    intros Hc. destruct (coro self) as [pc| | |v started] eqn:Ecoro.
    + by destruct (Hc pc).
    + unfold ping_server, keepalive, ws_send. rewrite Htid.
      split_and!; [crush | crush |].
      intros k Hk Hne. crush; keep.
    + unfold send_status_updates, keepalive, ws_send. rewrite Htid.
      split_and!; [crush | crush |].
      intros k Hk Hne. crush; keep.
    + unfold start_video_stream, ws_send. rewrite Htid.
      split_and!; [crush | crush |].
      intros k Hk Hne. crush; keep.
Qed.

Lemma C6_router_exit_restarts_without_cancelling_witness :
  let w := step serving PeerClosed in
  let w' := step w (Resume 0 (receiving ConnectionClosed quiet)) in
  active_streams w' = ∅ ∧ trace w' = trace w ++ [Slept 5000] ∧
  websocket w' = websocket w ∧ map tid (tasks w') = map tid (tasks w).
Proof.
  intros w w'.
  destruct (C6_router_exit_restarts_without_cancelling w 0
              {| tid := 0; born := 1; coro := Router Receiving |}
              (receiving ConnectionClosed quiet)) as [Hexit _].
  - vm_compute. reflexivity.
  - destruct Hexit as (H1 & H2 & H3 & H4 & _).
    + reflexivity.
    + vm_compute. reflexivity.
    + left. reflexivity.
    + split_and!; [exact H1 | exact H2 | exact H3 | exact H4].
Defined.

(** *** Who sets the stop event *)

Lemma ws_send_stop w env e : stop_event (ws_send w env e).2 = stop_event w.
Proof. unfold ws_send. crush. Qed.

Lemma connect_and_register_stop w env :
  stop_event (connect_and_register w env).2 = stop_event w.
Proof. unfold connect_and_register. crush. Qed.

Lemma capture_and_send_image_stop c w env :
  stop_event (capture_and_send_image c w env).2 = stop_event w.
Proof. unfold capture_and_send_image, ws_send. crush. Qed.

Lemma main_loop_finally_stop w :
  stop_event (main_loop_finally w) = stop_event w.
Proof. unfold main_loop_finally. crush. Qed.

Lemma ensure_camera_stop w env :
  stop_event (ensure_camera w env).2 = stop_event w.
Proof. unfold ensure_camera. crush. Qed.

Lemma main_loop_stop w env :
  stop_event (main_loop w env).2
  = stop_event w || negb (ensure_camera w env).1.
Proof.
  unfold main_loop.
  pose proof (ensure_camera_stop w env) as H1.
  destruct (ensure_camera w env) as [[] w1]; simpl in *.
  - pose proof (connect_and_register_stop w1 env) as H2.
    destruct (connect_and_register w1 env) as [[] w2]; simpl in *.
    + rewrite H2, H1. by rewrite orb_false_r.
    + rewrite main_loop_finally_stop. simpl. rewrite H2, H1.
      by rewrite orb_false_r.
  - rewrite main_loop_finally_stop. simpl. by rewrite orb_true_r.
Qed.

Lemma main_loop_returns_when_camera_fails w env :
  (ensure_camera w env).1 = false → (main_loop w env).1 = None.
Proof.
  unfold main_loop. destruct (ensure_camera w env) as [ok w1]. simpl.
  by intros ->.
Qed.

Lemma dispatch_stop self m w env :
  stop_event (dispatch self m w env) = stop_event w.
Proof.
  unfold dispatch. destruct (msg_type m); [|done].
  repeat case_decide; try done.
  - apply capture_and_send_image_stop.
  - by destruct (truthy _).
  - destruct (truthy _); [|done]. by destruct (_ !! _).
Qed.

Lemma handle_server_messages_stop self pc w env :
  stop_event (handle_server_messages self pc w env)
  = stop_event w ||
    match pc with Draining => negb (ensure_camera w env).1 | _ => false end.
Proof.
  destruct pc as [| |children]; simpl.
  - destruct (stop_event w) eqn:Hs; [done|].
    destruct (recv env); simpl; rewrite ?dispatch_stop; done.
  - pose proof (main_loop_stop w env) as H.
    by destruct (main_loop w env) as [[children|] w1].
  - destruct (all_done children w); simpl;
      rewrite ?main_loop_finally_stop; by rewrite orb_false_r.
Qed.

Lemma keepalive_stop self period e w env :
  stop_event (keepalive self period e w env) = stop_event w.
Proof. unfold keepalive, ws_send. crush. Qed.

Lemma start_video_stream_stop self v started w env :
  stop_event (start_video_stream self v started w env) = stop_event w.
Proof. unfold start_video_stream, ws_send. crush. Qed.

Lemma main_stop w env :
  stop_event (main w env)
  = stop_event w ||
    match main_task w with Top => negb (ensure_camera w env).1 | _ => false end.
Proof.
  unfold main, main_after_loop. destruct (main_task w) as [|children|].
  - destruct (stop_event w) eqn:Hs; [done|].
    pose proof (main_loop_stop w env) as H. rewrite Hs in H.
    destruct (main_loop w env) as [[children|] w1]; simpl in *; [done|].
    destruct (stop_event w1) eqn:E; simpl; congruence.
  - rewrite orb_false_r. destruct (all_done children w); [|done].
    pose proof (main_loop_finally_stop w) as H.
    destruct (stop_event (main_loop_finally w)) eqn:E; simpl; congruence.
  - by rewrite orb_false_r.
Qed.

Lemma step_sets_stop_event w ev :
  stop_event w = false → stop_event (step w ev) = true →
  ev = Signal ∨
  ∃ env, (ev = ResumeMain env ∨ ∃ t, ev = Resume t env) ∧
         (ensure_camera w env).1 = false.
Proof.
  intros Hs. destruct ev as [| |env|t env]; simpl.
  - by left.
  - destruct (websocket w); simpl; congruence.
  - rewrite main_stop, Hs. simpl. intros H. right. exists env.
    split; [by left|]. destruct (main_task w); try done.
    by apply negb_true_iff.
  - destruct (find_task t w) as [self|]; [|congruence].
    destruct (coro self) as [pc| | |v started].
    + rewrite handle_server_messages_stop, Hs. simpl. intros H.
      right. exists env. split; [right; by exists t|].
      destruct pc; try done. by apply negb_true_iff.
    + unfold ping_server. rewrite keepalive_stop. congruence.
    + unfold send_status_updates. rewrite keepalive_stop. congruence.
    + rewrite start_video_stream_stop. congruence.
Qed.

Lemma main_exits_with_stop_event w ev :
  main_task w ≠ Exited → main_task (step w ev) = Exited →
  stop_event (step w ev) = true.
Proof.
  intros Hm. destruct ev as [| |env|t env]; simpl.
  - done.
  - by destruct (websocket w).
  - unfold main, main_after_loop.
    destruct (main_task w) as [|children|] eqn:Emt; [| |done].
    + destruct (stop_event w) eqn:Hs; [done|].
      destruct (main_loop w env) as [[children|] w1]; [done|].
      destruct (stop_event w1) eqn:E; simpl; congruence.
    + destruct (all_done children w); [|simpl; congruence].
      destruct (stop_event (main_loop_finally w)) eqn:E; simpl; congruence.
  - destruct (find_task t w) as [self|]; [|done].
    intros H. exfalso. revert H.
    assert (Hfin : ∀ w0, main_task (main_loop_finally w0) = main_task w0)
      by (intros; unfold main_loop_finally; crush).
    assert (Hml : ∀ w0 e, main_task (main_loop w0 e).2 = main_task w0).
    { intros w0 e. unfold main_loop, ensure_camera, connect_and_register.
      crush; rewrite ?Hfin; crush. }
    destruct (coro self) as [pc| | |v started].
    + destruct pc as [| |children]; simpl.
      * unfold dispatch, capture_and_send_image, ws_send. crush.
      * pose proof (Hml w env) as H.
        destruct (main_loop w env) as [[children|] w1]; simpl in *; congruence.
      * destruct (all_done children w); simpl; rewrite ?Hfin; done.
    + unfold ping_server, keepalive, ws_send. crush.
    + unfold send_status_updates, keepalive, ws_send. crush.
    + unfold start_video_stream, ws_send. crush.
Qed.

(** *** Failures that are waited out *)

Lemma ensure_camera_frame w env :
  tasks (ensure_camera w env).2 = tasks w ∧
  main_task (ensure_camera w env).2 = main_task w ∧
  ∃ pre, trace (ensure_camera w env).2 = trace w ++ pre.
Proof.
  unfold ensure_camera. destruct (camera w).
  - split_and!; try done. exists []. by rewrite app_nil_r.
  - destruct (Camera.initialize _ _) as [[r cam] tr]. simpl.
    split_and!; try done. by exists tr.
Qed.

Lemma connect_and_register_frame w env :
  tasks (connect_and_register w env).2 = tasks w ∧
  main_task (connect_and_register w env).2 = main_task w ∧
  trace (connect_and_register w env).2 = trace w.
Proof. unfold connect_and_register. split_and!; crush. Qed.

Lemma main_loop_finally_frame w :
  tasks (main_loop_finally w) = tasks w ∧
  main_task (main_loop_finally w) = main_task w ∧
  ∃ mid, trace (main_loop_finally w) = trace w ++ mid ∧
         (mid = [] ∨ ∃ c, mid = [WsClosed c]).
Proof.
  unfold main_loop_finally. split_and!; [crush | crush |].
  destruct (websocket w) as [[c []]|]; simpl.
  2,3: exists []; rewrite app_nil_r; split; [crush | by left].
  exists [WsClosed c]. split; [crush | right; by exists c].
Qed.

Lemma connect_failure_waits_and_retries w env :
  main_task w = Top → stop_event w = false →
  (ensure_camera w env).1 = true →
  (connect_and_register (ensure_camera w env).2 env).1 = false →
  let w' := step w (ResumeMain env) in
  main_task w' = Top ∧ stop_event w' = false ∧ tasks w' = tasks w ∧
  ∃ pre mid, trace w' = trace w ++ pre ++ Slept 10000 :: mid ++ [Slept 5000] ∧
             (mid = [] ∨ ∃ c, mid = [WsClosed c]).
Proof.
  intros Hm Hs Hcam Hconn w'. subst w'. simpl. unfold main, main_loop.
  rewrite Hm, Hs.
  destruct (ensure_camera_frame w env) as (T1 & _ & pre & R1).
  pose proof (ensure_camera_stop w env) as S1.
  destruct (ensure_camera w env) as [ok w1]. simpl in *. subst ok. simpl.
  destruct (connect_and_register_frame w1 env) as (T2 & _ & R2).
  pose proof (connect_and_register_stop w1 env) as S2.
  destruct (connect_and_register w1 env) as [ok w2]. simpl in *. subst ok. simpl.
  destruct (main_loop_finally_frame (emit [Slept 10000] w2))
    as (T3 & _ & mid & R3 & Hmid).
  pose proof (main_loop_finally_stop (emit [Slept 10000] w2)) as S3.
  unfold main_after_loop. simpl in *.
  rewrite S3, S2, S1, Hs. simpl.
  split_and!; try congruence.
  exists pre, mid. split; [|done].
  rewrite R3, R2, R1, <- !app_assoc. done.
Qed.

(** C3 as stated fails: with no signal at all, a camera that cannot be
    initialised ends the session loop, because [main_loop] sets the stop
    event itself. *)
Lemma C3_counterexample_camera_failure_stops_process :
  let evs := [ResumeMain (on_hardware hardware_absent quiet)] in
  (Signal ∉ evs) ∧
  stop_event (run (boot sample_config ∅) evs) = true ∧
  main_task (run (boot sample_config ∅) evs) = Exited.
Proof.
  split; [|vm_compute; by split].
  intros H. apply list_elem_of_In in H. simpl in H. by destruct H.
Qed.

(** C3, amended.  The loop of [main] ends only with the stop event set.
    The stop event is set by a signal, or by [main_loop] when it has to
    create the camera and [initialize] returns [False]: then [main_loop]
    returns at once and [main], if it is the caller, leaves its loop (the
    process does not go on without a camera).  A registration or
    connection failure is waited out: ten seconds in [main_loop], five in
    [main], and [main] is back at its loop test with the stop event
    clear.  A capture request, whatever its outcome, leaves the tasks,
    [main] and the stop event as they are. *)
Theorem C3_session_loop_exit (w : World) (ev : Event) :
  (main_task w ≠ Exited → main_task (step w ev) = Exited →
   stop_event (step w ev) = true) ∧
  (stop_event w = false → stop_event (step w ev) = true →
   ev = Signal ∨
   ∃ env, (ev = ResumeMain env ∨ ∃ t, ev = Resume t env) ∧
          (ensure_camera w env).1 = false) ∧
  (∀ env, ev = ResumeMain env → main_task w = Top → stop_event w = false →
     (ensure_camera w env).1 = false →
     stop_event (step w ev) = true ∧ main_task (step w ev) = Exited) ∧
  (∀ env, ev = ResumeMain env → main_task w = Top → stop_event w = false →
     (ensure_camera w env).1 = true →
     (connect_and_register (ensure_camera w env).2 env).1 = false →
     main_task (step w ev) = Top ∧ stop_event (step w ev) = false ∧
     tasks (step w ev) = tasks w ∧
     ∃ pre mid,
       trace (step w ev) = trace w ++ pre ++ Slept 10000 :: mid ++ [Slept 5000] ∧
       (mid = [] ∨ ∃ c, mid = [WsClosed c])) ∧
  (∀ t self env cid, ev = Resume t env → find_task t w = Some self →
     coro self = Router Receiving → stop_event w = false →
     recv env = request "capture_request" cid →
     tasks (step w ev) = tasks w ∧ stop_event (step w ev) = false ∧
     main_task (step w ev) = main_task w).
Proof.
  split_and!.
  - apply main_exits_with_stop_event.
  - apply step_sets_stop_event.
  - intros env -> Hm Hs Hcam. simpl.
    pose proof (main_stop w env) as Hstop. rewrite Hm, Hs, Hcam in Hstop.
    split; [exact Hstop|].
    unfold main in *. rewrite Hm, Hs in *.
    pose proof (main_loop_returns_when_camera_fails w env Hcam) as Hret.
    destruct (main_loop w env) as [[children|] w1]; [done|].
    unfold main_after_loop in *.
    destruct (stop_event w1) eqn:E; simpl in *; congruence.
  - intros env ->. apply connect_failure_waits_and_retries.
  - intros t self env cid -> Hf Hc Hs Hr.
    rewrite (step_resume _ _ _ _ Hf), Hc. simpl. rewrite Hs, Hr.
    unfold request. cbv beta iota. rewrite dispatch_capture_request.
    rewrite capture_and_send_image_stop.
    split_and!; [|done|]; unfold capture_and_send_image, ws_send; crush.
Qed.

Lemma C3_session_loop_exit_witness :
  let env := {| now := 0; uptime := 0; recv := TimedOut; send := SendOk;
                still := still_writing [x01]; read_raises := false;
                raster := None; hw := hardware_up;
                registration := Rejected; connection := Confirmed |} in
  let w := boot sample_config ∅ in
  main_task (step w (ResumeMain env)) = Top ∧
  stop_event (step w (ResumeMain env)) = false.
Proof.
  intros env w.
  destruct (C3_session_loop_exit w (ResumeMain env)) as (_ & _ & _ & Hretry & _).
  destruct (Hretry env) as (H1 & H2 & _).
  - reflexivity.
  - reflexivity.
  - reflexivity.
  - vm_compute. reflexivity.
  - vm_compute. reflexivity.
  - split; [exact H1 | exact H2].
Defined.

(** *** What is sent *)

Lemma delays_between_Forall (P : Effect → Prop) attempts :
  P (Slept 10000) → Forall (Forall P) attempts →
  Forall P (delays_between attempts).
Proof.
  intros HP. induction 1 as [|a rest Ha _ IH]; [constructor|].
  destruct rest as [|b rest]; [done|].
  change (delays_between (a :: b :: rest))
    with (a ++ Slept 10000 :: delays_between (b :: rest)).
  apply Forall_app. split; [done|]. by constructor.
Qed.

Lemma initialize_sends_nothing self hw :
  Forall reports_full_battery (Camera.initialize self hw).2.
Proof.
  destruct (initialize_attempts _ self hw (Nat.le_refl _))
    as (attempts & -> & Hshape & _).
  apply delays_between_Forall; [done|].
  eapply Forall_impl; [exact Hshape|].
  intros a [-> | [-> | [-> | ->]]]; repeat constructor.
Qed.

Lemma legacy_attempts_sends_nothing todo (fs0 : FS) env :
  Forall reports_full_battery (Camera.legacy_attempts todo fs0 env).2.
Proof.
  revert fs0. induction todo as [|a todo IH]; intros fs0; simpl; [constructor|].
  destruct (_ && _); [constructor|].
  destruct (_ <? _)%nat; [|constructor].
  specialize (IH (Camera.shoot fs0 (Camera.filename env) (Camera.shots env a))).
  destruct (Camera.legacy_attempts todo _ env) as [[ok fs2] tr].
  by constructor.
Qed.

Lemma capture_image_sends_nothing self (fs0 : FS) env hw :
  Forall reports_full_battery (Camera.capture_image self fs0 env hw).2.
Proof.
  unfold Camera.capture_image. destruct (_ || _); [constructor|].
  assert (Hb : Forall reports_full_battery (Camera.capture_body self fs0 env).2).
  { unfold Camera.capture_body.
    destruct (Camera.camera_type self) as [[]|].
    - destruct (Camera.capture_picamera2 fs0 env) as [ok fs1].
      destruct (_ && _); constructor.
    - pose proof (legacy_attempts_sends_nothing
                    (seq 0 Camera.max_attempts) fs0 env) as H.
      unfold Camera.capture_legacy.
      destruct (Camera.legacy_attempts _ fs0 env) as [[ok fs1] tr].
      by destruct (_ && _).
    - simpl. constructor.
    - simpl. constructor. }
  destruct (Camera.capture_body self fs0 env) as [[[p|] fs1] tr]; [done|].
  destruct (Camera.cleanup self true fs1) as [self1 fs2].
  pose proof (initialize_sends_nothing self1 hw) as Hi.
  destruct (Camera.initialize self1 hw) as [[r self2] tr2]. simpl in *.
  apply Forall_app. split; [done|]. by constructor.
Qed.

Lemma capture_frame_sends_nothing self res raster :
  Forall reports_full_battery (Camera.capture_frame self res raster).2.
Proof.
  unfold Camera.capture_frame. destruct (_ || _); [constructor|].
  destruct (Camera.camera_type self) as [[]|]; try destruct raster;
    simpl; try destruct (negb _); repeat constructor.
Qed.

Ltac battery :=
  repeat (simpl in *; try done; case_match; simplify_eq/=);
  simpl in *; rewrite ?Forall_app;
  repeat split; try done; repeat constructor; try done.

Lemma ws_send_battery w env e :
  reports_full_battery (Sent 0 e) →
  Forall reports_full_battery (trace w) →
  Forall reports_full_battery (trace (ws_send w env e).2).
Proof.
  unfold ws_send. intros He Hw.
  destruct (websocket w) as [ws|]; [|done].
  destruct (open ws); [|done].
  destruct (send env); simpl; try done.
  apply Forall_app. split; [done|]. constructor; [exact He | constructor].
Qed.

Lemma connect_and_register_battery w env :
  Forall reports_full_battery (trace w) →
  Forall reports_full_battery (trace (connect_and_register w env).2).
Proof. destruct (connect_and_register_frame w env) as (_ & _ & ->). done. Qed.

Lemma main_loop_finally_battery w :
  Forall reports_full_battery (trace w) →
  Forall reports_full_battery (trace (main_loop_finally w)).
Proof.
  destruct (main_loop_finally_frame w) as (_ & _ & mid & -> & Hmid).
  intros Hw. apply Forall_app. split; [done|].
  destruct Hmid as [-> | [c ->]]; repeat constructor.
Qed.

Lemma capture_and_send_image_battery c w env :
  Forall reports_full_battery (trace w) →
  Forall reports_full_battery (trace (capture_and_send_image c w env).2).
Proof.
  intros Hw. unfold capture_and_send_image.
  destruct (camera w) as [cam|]; [|done].
  destruct (websocket w) as [ws|]; [|done].
  pose proof (capture_image_sends_nothing cam (fs w) (still env) (hw env)) as Hc.
  destruct (Camera.capture_image cam (fs w) (still env) (hw env))
    as [[[p cam1] fs1] tr]. simpl in Hc.
  assert (H1 : Forall reports_full_battery
                 (trace (emit tr (set_fs fs1 (set_camera (Some cam1) w)))))
    by (simpl; by apply Forall_app).
  destruct (truthy p) as [q|]; [|done].
  destruct (if read_raises env then None else fs1 !! q) as [bytes|]; [|done].
  match goal with |- context [ws_send ?a ?b ?c] =>
    pose proof (ws_send_battery a b c eq_refl H1) as H2;
    destruct (ws_send a b c) as [[] w2] end; done.
Qed.

Lemma main_loop_battery w env :
  Forall reports_full_battery (trace w) →
  Forall reports_full_battery (trace (main_loop w env).2).
Proof.
  intros Hw. unfold main_loop.
  assert (H1 : Forall reports_full_battery (trace (ensure_camera w env).2)).
  { unfold ensure_camera. destruct (camera w); [done|].
    pose proof (initialize_sends_nothing
                  (Camera.__init__ (NO_CAMERA (cfg w)) (TEMP_IMAGE_DIR (cfg w)))
                  (hw env)) as Hi.
    destruct (Camera.initialize _ _) as [[r cam] tr]. simpl in *.
    by apply Forall_app. }
  destruct (ensure_camera w env) as [[] w1]; simpl in *.
  - pose proof (connect_and_register_battery w1 env H1) as H2.
    destruct (connect_and_register w1 env) as [[] w2]; simpl in *; [done|].
    apply main_loop_finally_battery. simpl. apply Forall_app.
    split; [done|repeat constructor].
  - by apply main_loop_finally_battery.
Qed.

Lemma step_battery w ev :
  Forall reports_full_battery (trace w) →
  Forall reports_full_battery (trace (step w ev)).
Proof.
  intros Hw. destruct ev as [| |env|t env]; simpl.
  - done.
  - by destruct (websocket w).
  - unfold main, main_after_loop. destruct (main_task w) as [|children|].
    + destruct (stop_event w); [done|].
      pose proof (main_loop_battery w env Hw) as H.
      destruct (main_loop w env) as [[children|] w1]; [done|].
      destruct (stop_event w1); simpl in *; [done|].
      apply Forall_app. split; [done|repeat constructor].
    + destruct (all_done children w); [|done].
      pose proof (main_loop_finally_battery w Hw) as H.
      destruct (stop_event _); simpl; [done|].
      apply Forall_app. split; [done|repeat constructor].
    + done.
  - destruct (find_task t w) as [self|]; [|done].
    destruct (coro self) as [pc| | |v started].
    + destruct pc as [| |children]; simpl.
      * destruct (stop_event w); [done|].
        destruct (recv env) as [m| | |]; try done.
        -- unfold dispatch. destruct (msg_type m); [|done].
           repeat case_decide; try done.
           ++ by apply capture_and_send_image_battery.
           ++ by destruct (truthy _).
           ++ destruct (truthy _); [|done]. by destruct (_ !! _).
        -- simpl. apply Forall_app. split; [done|repeat constructor].
        -- simpl. apply Forall_app. split; [done|repeat constructor].
      * pose proof (main_loop_battery w env Hw) as H.
        by destruct (main_loop w env) as [[children|] w1].
      * destruct (all_done children w); [|done].
        simpl. by apply main_loop_finally_battery.
    + unfold ping_server, keepalive, ws_send. battery.
    + unfold send_status_updates, keepalive, ws_send. battery.
    + unfold start_video_stream.
      destruct started.
      * destruct (_ && _); [|done].
        destruct (camera w) as [cam|]; [|simpl; battery].
        destruct (websocket w) as [ws|] eqn:Hws; [|simpl; battery].
        destruct (negb (open ws)); [done|].
        pose proof (capture_frame_sends_nothing cam
                      (STREAM_RESOLUTION (cfg w)) (raster env)) as Hf.
        destruct (Camera.capture_frame _ _ _) as [[[f|] cam1] tr];
          simpl in Hf; [|simpl; battery].
        unfold ws_send. simpl. rewrite Hws. battery.
      * destruct (camera w) as [cam|] eqn:Hcam; [|done].
        destruct (websocket w) as [ws|] eqn:Hws; [|done].
        simpl. destruct (_ && _); [|done].
        rewrite Hcam, Hws.
        destruct (negb (open ws)); [done|].
        pose proof (capture_frame_sends_nothing cam
                      (STREAM_RESOLUTION (cfg w)) (raster env)) as Hf.
        destruct (Camera.capture_frame _ _ _) as [[[f|] cam1] tr];
          simpl in Hf; [|simpl; battery].
        unfold ws_send. simpl. rewrite Hws. battery.
Qed.

Lemma run_battery evs : ∀ w,
  Forall reports_full_battery (trace w) →
  Forall reports_full_battery (trace (run w evs)).
Proof.
  induction evs as [|ev evs IH]; intros w Hw; [done|].
  simpl. apply IH. by apply step_battery.
Qed.

(** C9. [check_battery] returns 100, and in every run of the process,
    whatever the hardware, the server and the scheduler do, every
    [image], [frame] and [status_update] envelope that is sent carries
    the battery level 100. *)
Theorem C9_battery_is_always_100 (c : Config) (disk : FS) (evs : list Event) :
  check_battery = Some 100%Z ∧
  Forall reports_full_battery (trace (run (boot c disk) evs)).
Proof. split; [reflexivity|]. apply run_battery. constructor. Qed.

(** *** The registry and its workers *)

Lemma same_core_refl w : same_core w w.
Proof. by repeat split. Qed.

Lemma same_core_trans w1 w2 w3 :
  same_core w1 w2 → same_core w2 w3 → same_core w1 w3.
Proof.
  intros (A1 & A2 & A3 & A4 & A5) (B1 & B2 & B3 & B4 & B5).
  repeat split; try congruence; auto.
Qed.

Ltac core := unfold same_core, keeps_equipment; crush; repeat split; crush; eauto.

Lemma ws_send_core w env e : same_core w (ws_send w env e).2.
Proof. unfold ws_send. core. Qed.

Lemma connect_and_register_core w env :
  same_core w (connect_and_register w env).2.
Proof. unfold connect_and_register. core. Qed.

Lemma main_loop_finally_core w : same_core w (main_loop_finally w).
Proof. unfold main_loop_finally. core. Qed.

Lemma ensure_camera_core w env : same_core w (ensure_camera w env).2.
Proof. unfold ensure_camera. core. Qed.

Lemma capture_and_send_image_core c w env :
  same_core w (capture_and_send_image c w env).2.
Proof. unfold capture_and_send_image, ws_send. core. Qed.

Lemma ensure_camera_equips w env :
  (ensure_camera w env).1 = true → is_Some (camera (ensure_camera w env).2).
Proof. unfold ensure_camera. crush; eauto. Qed.

Lemma connect_and_register_equips w env :
  (connect_and_register w env).1 = true →
  is_Some (websocket (connect_and_register w env).2).
Proof. unfold connect_and_register. crush; eauto. Qed.

Lemma main_loop_shape w env :
  ((main_loop w env).1 = None ∧ same_core w (main_loop w env).2) ∨
  (∃ c children,
     (main_loop w env).1 = Some children ∧
     tasks (main_loop w env).2 = tasks w ++ cohort_tasks (next_tid w) c ∧
     next_tid (main_loop w env).2 = S (S (S (next_tid w))) ∧
     active_streams (main_loop w env).2 = active_streams w ∧
     is_Some (camera (main_loop w env).2) ∧
     is_Some (websocket (main_loop w env).2) ∧
     keeps_equipment w (main_loop w env).2).
Proof.
  unfold main_loop.
  pose proof (ensure_camera_core w env) as C1.
  pose proof (ensure_camera_equips w env) as Q1.
  destruct (ensure_camera w env) as [[] w1]; simpl in *.
  - pose proof (connect_and_register_core w1 env) as C2.
    pose proof (connect_and_register_equips w1 env) as Q2.
    destruct (connect_and_register w1 env) as [[] w2]; simpl in *.
    + right. exists (S (cohort w2)), [next_tid w2; S (next_tid w2); S (S (next_tid w2))].
      destruct C1 as (A1 & A2 & A3 & A4 & A5), C2 as (B1 & B2 & B3 & B4 & B5).
      unfold cohort_tasks. rewrite B1, A1, B2, A2, B3, A3, <- !app_assoc. simpl.
      split_and!; try done; auto. split; auto.
    + left. split; [done|].
      eapply same_core_trans; [exact C1|].
      eapply same_core_trans; [exact C2|].
      eapply same_core_trans; [|apply main_loop_finally_core].
      by repeat split.
  - left. split; [done|].
    eapply same_core_trans; [exact C1|].
    eapply same_core_trans; [|apply main_loop_finally_core].
    by repeat split.
Qed.

Lemma main_shape w env :
  Shape w (main w env) ∧ keeps_equipment w (main w env).
Proof.
  unfold main, main_after_loop. destruct (main_task w) as [|children|].
  - destruct (stop_event w); [split; [by apply sh_same | by split]|].
    destruct (main_loop_shape w env)
      as [[E (A1 & A2 & A3 & A4)] | (c & ch & E & A1 & A2 & A3 & A4 & A5 & A6)];
      destruct (main_loop w env) as [[children|] w1]; simpl in *; try done.
    + destruct (stop_event w1); (split; [by apply sh_same | done]).
    + split; [by eapply sh_cohort | done].
  - destruct (all_done children w); [|split; [by apply sh_same | by split]].
    destruct (main_loop_finally_core w) as (A1 & A2 & A3 & A4).
    destruct (stop_event _); (split; [by apply sh_same | done]).
  - split; [by apply sh_same | by split].
Qed.

Ltac not_a_worker :=
  let H := fresh in intros ? ? H; congruence.

Lemma keepalive_shape self period e w env :
  find_task (tid self) w = Some self →
  (coro self = Pinger ∨ coro self = Reporter) →
  Shape w (keepalive self period e w env) ∧
  keeps_equipment w (keepalive self period e w env).
Proof.
  intros Hf Hc. unfold keepalive, ws_send.
  split; [|unfold keeps_equipment; crush].
  crush.
  all: first [ by apply sh_same
             | eapply sh_finish; [exact Hf | destruct Hc; not_a_worker | done..] ].
Qed.

Lemma dispatch_shape self m w env :
  find_task (tid self) w = Some self →
  Shape w (dispatch self m w env) ∧ keeps_equipment w (dispatch self m w env).
Proof.
  intros Hf. unfold dispatch.
  destruct (msg_type m) as [ty|]; [|split; [by apply sh_same | by split]].
  repeat case_decide.
  - destruct (capture_and_send_image_core (msg_client_id m) w env)
      as (A1 & A2 & A3 & A4).
    split; [by apply sh_same | done].
  - destruct (truthy _) as [v|]; [|split; [by apply sh_same | by split]].
    split; [by eapply (sh_spawn _ _ _ _ v Hf) | by split].
  - destruct (truthy _) as [v|]; [|split; [by apply sh_same | by split]].
    destruct (active_streams w !! v) eqn:Hv;
      [|split; [by apply sh_same | by split]].
    split; [|by split]. by apply (sh_stop _ _ v).
  - split; [by apply sh_same | by split].
Qed.

Lemma handle_server_messages_shape self pc w env :
  find_task (tid self) w = Some self → coro self = Router pc →
  Shape w (handle_server_messages self pc w env) ∧
  keeps_equipment w (handle_server_messages self pc w env).
Proof.
  intros Hf Hc. destruct pc as [| |children]; simpl.
  - destruct (stop_event w).
    { split; [|by split].
      eapply sh_finish; [exact Hf | not_a_worker | done..]. }
    destruct (recv env) as [m| | |].
    + by apply dispatch_shape.
    + split; [by apply sh_same | by split].
    + split; [by eapply sh_clear | by split].
    + split; [by eapply sh_clear | by split].
  - destruct (main_loop_shape w env)
      as [[E (A1 & A2 & A3 & A4)] | (c & ch & E & A1 & A2 & A3 & A4 & A5 & A6)];
      destruct (main_loop w env) as [[children|] w1]; simpl in *; try done.
    + split; [|done].
      eapply sh_finish; [exact Hf | not_a_worker | simpl; by rewrite A1 | done..].
    + split; [|done].
      eapply sh_nested_cohort; [exact Hf | exact Hc | simpl; by rewrite A1 | done..].
  - destruct (all_done children w); [|split; [by apply sh_same | by split]].
    destruct (main_loop_finally_core w) as (A1 & A2 & A3 & A4).
    split; [|done].
    eapply sh_finish; [exact Hf | not_a_worker | simpl; by rewrite A1 | done..].
Qed.

Lemma filter_retarget t c (l : list Task) :
  List.filter (λ k, negb (tid k =? t)%nat) (map (retarget t c) l)
  = List.filter (λ k, negb (tid k =? t)%nat) l.
Proof.
  induction l as [|k l IH]; [done|]. simpl. unfold retarget at 1 2.
  destruct (tid k =? t)%nat eqn:E; simpl; rewrite E; simpl; by rewrite IH.
Qed.

Lemma start_video_stream_shape self v started w env :
  find_task (tid self) w = Some self → coro self = Streamer v started →
  Shape w (start_video_stream self v started w env) ∧
  keeps_equipment w (start_video_stream self v started w env).
Proof.
  intros Hf Hc. unfold start_video_stream, ws_send.
  split; [|unfold keeps_equipment; crush; split; eauto].
  destruct started.
  - crush.
    all: first [ by apply sh_same
               | by eapply sh_exit; [exact Hf | exact Hc | done..] ].
  - destruct (camera w) eqn:Hcam; cycle 1.
    { eapply sh_finish; [exact Hf| |done..].
      intros v' b E. split; [congruence|]. rewrite Hcam. by intros [[] _]. }
    destruct (websocket w) eqn:Hws; cycle 1.
    { eapply sh_finish; [exact Hf| |done..].
      intros v' b E. split; [congruence|]. rewrite Hws. by intros [_ []]. }
    crush.
    all: first [ by eapply sh_start; [exact Hf | exact Hc | done..]
               | eapply sh_exit;
                 [exact Hf | exact Hc
                 | simpl; rewrite ?filter_retarget, ?delete_insert_eq; done ..] ].
Qed.

Lemma step_shape w ev :
  Shape w (step w ev) ∧ keeps_equipment w (step w ev).
Proof.
  destruct ev as [| |env|t env]; simpl.
  - split; [by apply sh_same | by split].
  - destruct (websocket w); (split; [by apply sh_same | split; eauto]).
  - apply main_shape.
  - destruct (find_task t w) as [self|] eqn:Hf;
      [|split; [by apply sh_same | by split]].
    destruct (find_task_Some _ _ _ Hf) as [<- _].
    destruct (coro self) as [pc| | |v started] eqn:Hc.
    + by apply handle_server_messages_shape.
    + apply keepalive_shape; auto.
    + apply keepalive_shape; auto.
    + by apply start_video_stream_shape.
Qed.

Lemma same_tid_same_task (l : list Task) k k' :
  NoDup (map tid l) → k ∈ l → k' ∈ l → tid k = tid k' → k = k'.
Proof.
  induction l as [|x l IH]; simpl; [by intros _ ?%elem_of_nil|].
  intros [Hx Hl]%NoDup_cons [->|Hk]%elem_of_cons [->|Hk']%elem_of_cons E; auto.
  - destruct Hx. rewrite E. by apply list_elem_of_fmap_2.
  - destruct Hx. rewrite <- E. by apply list_elem_of_fmap_2.
Qed.

Lemma filter_sub (l : list Task) t k :
  k ∈ List.filter (λ k, negb (tid k =? t)%nat) l → k ∈ l.
Proof. intros H%list_elem_of_In%List.filter_In. apply list_elem_of_In. tauto. Qed.

Lemma filter_tids_NoDup (l : list Task) t :
  NoDup (map tid l) → NoDup (map tid (List.filter (λ k, negb (tid k =? t)%nat) l)).
Proof.
  induction l as [|x l IH]; simpl; [done|].
  intros [Hx Hl]%NoDup_cons. destruct (negb _); simpl; auto.
  apply NoDup_cons. split; auto.
  intros (k & E & Hk)%list_elem_of_fmap. apply Hx.
  rewrite E. apply list_elem_of_fmap_2. by eapply filter_sub.
Qed.

Lemma tid_retarget t c k : tid (retarget t c k) = tid k.
Proof. unfold retarget. by destruct (_ =? _)%nat. Qed.

Lemma retarget_self t c k :
  tid k = t → retarget t c k = {| tid := tid k; born := born k; coro := c |}.
Proof. intros H%Nat.eqb_eq. unfold retarget. by rewrite H. Qed.

Lemma find_filter_None (l : list Task) t :
  List.find (λ k, (tid k =? t)%nat)
    (List.filter (λ k, negb (tid k =? t)%nat) l) = None.
Proof.
  induction l as [|x l IH]; simpl; [done|].
  destruct (tid x =? t)%nat eqn:E; simpl; [done|]. by rewrite E.
Qed.

Lemma cohort_tids_fresh (l : list Task) n c :
  NoDup (map tid l) → Forall (λ k, (tid k < n)%nat) l →
  NoDup (map tid (l ++ cohort_tasks n c)) ∧
  Forall (λ k, (tid k < S (S (S n)))%nat) (l ++ cohort_tasks n c).
Proof.
  intros Hn Hlt. split.
  - rewrite map_app. apply NoDup_app. split_and!; [done| |].
    + intros x (k & -> & Hk)%list_elem_of_fmap Hx.
      rewrite Forall_forall in Hlt. specialize (Hlt k Hk).
      simpl in Hx.
      repeat (apply elem_of_cons in Hx as [E|Hx]; [lia|]).
      by apply elem_of_nil in Hx.
    + simpl. repeat (apply NoDup_cons; split;
        [intros Hx; repeat (apply elem_of_cons in Hx as [E|Hx]; [lia|]);
         by apply elem_of_nil in Hx|]).
      apply NoDup_nil_2.
  - apply Forall_app. split.
    + eapply Forall_impl; [exact Hlt|]. simpl. lia.
    + unfold cohort_tasks.
      repeat (apply Forall_cons; split; [simpl; lia|]). apply Forall_nil_2.
Qed.

Lemma shape_preserves w w' :
  Shape w w' → keeps_equipment w w' → well_formed w → well_formed w'.
Proof.
  intros Hshape [Kc Kw] ((Hnd & Hlt) & Hback & Heq).
  assert (Hsame : ∀ k k', k ∈ tasks w → k' ∈ tasks w → tid k = tid k' → k = k')
    by (intros; by eapply same_tid_same_task).
  unfold well_formed, tids_distinct, registry_backed, equipped.
  destruct Hshape
    as [T N R
       | t self Hf Hg T N R
       | t self v Hf T N R
       | v Hv T N R
       | t self Hf Hc T N R
       | c T N R Ec Ew
       | t self pc pc' c Hf Hc T N R Ec Ew
       | t self v Hf Hc T N R
       | t self v b Hf Hc T N R];
    rewrite T, N, R; try destruct (find_task_Some _ _ _ Hf) as [Ht Hin].
  - split_and!; auto. intros ?. destruct Heq; auto.
  - simpl. split_and!.
    + by apply filter_tids_NoDup.
    + rewrite Forall_forall in Hlt |- *. intros k Hk%filter_sub. auto.
    + intros v Hv. destruct (Hback v Hv) as (k & Hk & Ek).
      exists k. split; [|done]. apply filter_keep; [done|].
      intros E. assert (k = self) by (apply Hsame; auto; congruence). subst k.
      by destruct (Hg _ _ Ek).
    + intros Hne. destruct Heq; auto. intros E. by rewrite E in Hne.
  - split_and!.
    + rewrite map_app. apply NoDup_app. split_and!; [done| |apply NoDup_singleton].
      intros x (k & -> & Hk)%list_elem_of_fmap Hx.
      rewrite Forall_forall in Hlt. specialize (Hlt k Hk).
      simpl in Hx. apply list_elem_of_singleton in Hx. lia.
    + apply Forall_app. split.
      * eapply Forall_impl; [exact Hlt|]. simpl. lia.
      * apply Forall_cons. split; [simpl; lia|apply Forall_nil_2].
    + intros v' Hv. destruct (Hback v' Hv) as (k & Hk & Ek).
      exists k. split; [|done]. apply elem_of_app. by left.
    + intros _. destruct Heq; auto. intros E. rewrite E in Hin.
      by apply elem_of_nil in Hin.
  - split_and!; auto.
    + intros v' Hv'. apply Hback.
      destruct (decide (v = v')) as [<-|Hne]; [done|].
      by rewrite lookup_insert_ne in Hv'.
    + intros ?. destruct Heq; auto.
  - simpl. split_and!.
    + by rewrite map_tids.
    + rewrite Forall_forall in Hlt |- *.
      intros k (k0 & -> & Hk)%list_elem_of_fmap. rewrite tid_retarget. auto.
    + intros v Hv. rewrite lookup_empty in Hv. by destruct Hv.
    + intros Hne. destruct Heq; auto. intros E. by rewrite E in Hne.
  - destruct (cohort_tids_fresh _ _ c Hnd Hlt). split_and!; auto.
    intros v Hv. destruct (Hback v Hv) as (k & Hk & Ek).
    exists k. split; [|done]. apply elem_of_app. by left.
  - destruct (cohort_tids_fresh _ _ c Hnd Hlt) as [H1 H2]. split_and!; auto.
    + by rewrite map_tids.
    + rewrite Forall_forall in H2 |- *.
      intros k (k0 & -> & Hk)%list_elem_of_fmap. rewrite tid_retarget. auto.
    + intros v Hv. destruct (Hback v Hv) as (k & Hk & Ek).
      exists k. split; [|done]. apply map_keep; [apply elem_of_app; by left|].
      intros E. assert (k = self) by (apply Hsame; auto; congruence). subst k.
      congruence.
  - simpl. split_and!.
    + by rewrite map_tids.
    + rewrite Forall_forall in Hlt |- *.
      intros k (k0 & -> & Hk)%list_elem_of_fmap. rewrite tid_retarget. auto.
    + intros v' Hv'. destruct (decide (v = v')) as [<-|Hne].
      * exists {| tid := tid self; born := born self; coro := Streamer v true |}.
        split; [|done]. apply list_elem_of_fmap. exists self.
        split; [by rewrite retarget_self|done].
      * rewrite lookup_insert_ne in Hv' by done.
        destruct (Hback v' Hv') as (k & Hk & Ek).
        exists k. split; [|done]. apply map_keep; [done|].
        intros E. assert (k = self) by (apply Hsame; auto; congruence). subst k.
        congruence.
    + intros Hne. destruct Heq; auto. intros E. by rewrite E in Hne.
  - simpl. split_and!.
    + by apply filter_tids_NoDup.
    + rewrite Forall_forall in Hlt |- *. intros k Hk%filter_sub. auto.
    + intros v' Hv'. destruct (decide (v = v')) as [<-|Hne].
      * rewrite lookup_delete_eq in Hv'. by destruct Hv'.
      * rewrite lookup_delete_ne in Hv' by done.
        destruct (Hback v' Hv') as (k & Hk & Ek).
        exists k. split; [|done]. apply filter_keep; [done|].
        intros E. assert (k = self) by (apply Hsame; auto; congruence). subst k.
        congruence.
    + intros Hne. destruct Heq; auto. intros E. by rewrite E in Hne.
Qed.

Lemma boot_well_formed c disk : well_formed (boot c disk).
Proof.
  split_and!.
  - split; simpl; constructor.
  - intros v Hv. simpl in Hv. rewrite lookup_empty in Hv. by destruct Hv.
  - by intros H.
Qed.

Lemma run_well_formed evs : ∀ w, well_formed w → well_formed (run w evs).
Proof.
  induction evs as [|ev evs IH]; intros w Hw; [done|].
  simpl. apply IH. destruct (step_shape w ev) as [Hs Hk].
  by eapply shape_preserves.
Qed.

Lemma find_retarget (l : list Task) t c self :
  List.find (λ k, (tid k =? t)%nat) l = Some self →
  List.find (λ k, (tid k =? t)%nat) (map (retarget t c) l)
    = Some {| tid := tid self; born := born self; coro := c |}.
Proof.
  induction l as [|k l IH]; [done|]. simpl. rewrite tid_retarget.
  destruct (tid k =? t)%nat eqn:E; [|done].
  intros [= ->]. unfold retarget. by rewrite E.
Qed.

(** A worker that ends has run its [finally] clause: its viewer has no
    entry afterwards. *)
Lemma worker_end_removes_entry self v started w env :
  find_task (tid self) w = Some self → coro self = Streamer v started →
  equipped w →
  find_task (tid self) (start_video_stream self v started w env) = None →
  active_streams (start_video_stream self v started w env) !! v = None.
Proof.
  intros Hf Hc Heq.
  destruct (find_task_Some _ _ _ Hf) as [_ Hin].
  destruct Heq as [[cam Hcam] [ws Hws]];
    [intros E; rewrite E in Hin; by apply elem_of_nil in Hin|].
  unfold start_video_stream, ws_send, find_task in *.
  destruct started; crush.
  all: intros; try apply lookup_delete_eq.
  all: exfalso.
  all: try congruence.
  all: match goal with
       | H : List.find _ (map (retarget _ ?c) _) = None |- _ =>
           rewrite (find_retarget _ _ c _ Hf) in H; discriminate
       end.
Qed.

(** An entry disappears only in a step in which a worker of that viewer
    ends, or in which a router leaves its loop and clears the
    registry. *)
Lemma shape_removal w w' v :
  Shape w w' →
  is_Some (active_streams w !! v) → active_streams w' !! v = None →
  ∃ t self, find_task t w = Some self ∧
    ((∃ b, coro self = Streamer v b ∧ find_task t w' = None) ∨
     (coro self = Router Receiving ∧
      coro <$> find_task t w' = Some (Router Draining) ∧
      active_streams w' = ∅)).
Proof.
  intros Hshape [x Hx].
  destruct Hshape
    as [T N R
       | t self Hf Hg T N R
       | t self v0 Hf T N R
       | v0 Hv T N R
       | t self Hf Hc T N R
       | c T N R Ec Ew
       | t self pc pc' c Hf Hc T N R Ec Ew
       | t self v0 Hf Hc T N R
       | t self v0 b Hf Hc T N R];
    rewrite R; try congruence.
  - destruct (decide (v0 = v)) as [->|Hne];
      [by rewrite lookup_insert_eq | rewrite lookup_insert_ne by done; congruence].
  - intros _. exists t, self. split; [done|]. right. split_and!; [done| |done].
    unfold find_task in *. rewrite T. simpl.
    by rewrite (find_retarget _ _ (Router Draining) _ Hf).
  - destruct (decide (v0 = v)) as [->|Hne];
      [by rewrite lookup_insert_eq | rewrite lookup_insert_ne by done; congruence].
  - destruct (decide (v0 = v)) as [->|Hne];
      [|rewrite lookup_delete_ne by done; congruence].
    intros _. exists t, self. split; [done|]. left. exists b. split; [done|].
    unfold find_task. rewrite T. simpl. apply find_filter_None.
Qed.

(** C7 as stated fails: the worker is not the only one to remove its
    entry.  Here the worker of viewer "A" (task 3) is running and has
    its entry; the connection closes and the router (task 0), not the
    worker, removes the entry with [active_streams.clear()], while the
    worker is still there. *)
Lemma C7_counterexample_router_removes_entries :
  let w := run serving [Resume 0 (receiving (request "stream_request" (Some "A")) quiet);
                        Resume 3 quiet; PeerClosed] in
  let w' := step w (Resume 0 (receiving ConnectionClosed quiet)) in
  active_streams w !! "A" = Some true ∧
  active_streams w' !! "A" = None ∧
  find_task 3 w' = Some {| tid := 3; born := 1; coro := Streamer "A" true |}.
Proof. vm_compute. repeat split. Qed.

(** C7, amended.  In every reachable state of the process: a stream
    worker that ends, on whatever path, leaves no entry for its viewer
    in the registry; every entry of the registry belongs to a worker of
    that viewer that has started and not ended; and an entry disappears
    only in a step in which a worker of that viewer ends or in which the
    router leaves its loop and clears the whole registry. *)
Theorem C7_registry_entries_have_running_workers (c : Config) (disk : FS)
    (evs : list Event) (ev : Event) (v : string) :
  let w := run (boot c disk) evs in
  let w' := step w ev in
  (∀ t env self started,
     ev = Resume t env → find_task t w = Some self →
     coro self = Streamer v started → find_task t w' = None →
     active_streams w' !! v = None) ∧
  (is_Some (active_streams w !! v) →
   ∃ k, k ∈ tasks w ∧ coro k = Streamer v true) ∧
  (is_Some (active_streams w !! v) → active_streams w' !! v = None →
   ∃ t self, find_task t w = Some self ∧
     ((∃ b, coro self = Streamer v b ∧ find_task t w' = None) ∨
      (coro self = Router Receiving ∧
       coro <$> find_task t w' = Some (Router Draining) ∧
       active_streams w' = ∅))).
Proof.
  intros w w'.
  assert (Hwf : well_formed w) by apply run_well_formed, boot_well_formed.
  destruct Hwf as (Hd & Hb & He).
  split_and!.
  - intros t env self started -> Hf Hc. subst w'.
    rewrite (step_resume _ _ _ _ Hf), Hc.
    destruct (find_task_Some _ _ _ Hf) as [<- _].
    by apply worker_end_removes_entry.
  - apply Hb.
  - apply shape_removal. apply step_shape.
Qed.

Lemma C7_registry_entries_have_running_workers_witness :
  let evs := [ResumeMain quiet;
              Resume 0 (receiving (request "stream_request" (Some "A")) quiet);
              Resume 3 quiet;
              Resume 0 (receiving (request "stop_stream" (Some "A")) quiet)] in
  let w := run (boot sample_config ∅) evs in
  find_task 3 w = Some {| tid := 3; born := 1; coro := Streamer "A" true |} ∧
  active_streams w !! "A" = Some false ∧
  find_task 3 (step w (Resume 3 quiet)) = None ∧
  active_streams (step w (Resume 3 quiet)) !! "A" = None.
Proof.
  intros evs w.
  assert (Hf : find_task 3 w
               = Some {| tid := 3; born := 1; coro := Streamer "A" true |})
    by (vm_compute; reflexivity).
  assert (He : find_task 3 (step w (Resume 3 quiet)) = None)
    by (vm_compute; reflexivity).
  destruct (C7_registry_entries_have_running_workers sample_config ∅ evs
              (Resume 3 quiet) "A") as (Hend & _ & _).
  split_and!; [exact Hf | vm_compute; reflexivity | exact He |].
  exact (Hend 3 quiet _ true eq_refl Hf eq_refl He).
Defined.

End Session.


(** * Further properties *)

(** ** The camera object over its lifetime *)

(** The recursive equation of [initialize], under a name that the
    import of [Camera] does not hide. *)
Abbreviation initialize_body := initialize_unfold.

Section CameraObject.
Import Camera.

Lemma initialize_preserves_upto (P : PiCamera → Prop) :
  (∀ self a, P self → P (try_backends (next_attempt self) a).1.2) →
  ∀ n self hw, (max_init_attempts self - current_attempt self ≤ n)%nat →
    P self → P (initialize self hw).1.2.
Proof.
  intros Hstep. induction n as [|n IH]; intros self hw Hn HP;
    rewrite (initialize_body self hw); destruct (no_camera self); try done.
  all: pose proof (try_backends_counters (next_attempt self)
                     (hw (S (current_attempt self)))) as (Hc & Hm & _);
    pose proof (Hstep self (hw (S (current_attempt self))) HP) as HP1;
    destruct (try_backends _ _) as [[[] self1] tr]; simpl in *; try done.
  all: destruct (_ <? _)%nat eqn:Hlt; try done; apply Nat.ltb_lt in Hlt.
  - lia.
  - simpl. apply IH; [lia|done].
Qed.

Lemma initialize_preserves (P : PiCamera → Prop) :
  (∀ self a, P self → P (try_backends (next_attempt self) a).1.2) →
  ∀ self hw, P self → P (initialize self hw).1.2.
Proof. intros H self hw. by eapply initialize_preserves_upto. Qed.

Lemma initialize_outcome n : ∀ self hw,
  (max_init_attempts self - current_attempt self ≤ n)%nat →
  ((initialize self hw).1.1 = true →
     initialized (initialize self hw).1.2 = true ∧
     backend_agrees (initialize self hw).1.2) ∧
  ((initialize self hw).1.1 = false →
     initialized (initialize self hw).1.2 = initialized self).
Proof.
  induction n as [|n IH]; intros self hw Hn; rewrite initialize_body;
    destruct (no_camera self); try done.
  all: pose proof (try_backends_counters (next_attempt self)
                     (hw (S (current_attempt self)))) as (Hc & Hm & _);
    assert (Ht : ((try_backends (next_attempt self)
                     (hw (S (current_attempt self)))).1.1 = true →
                  initialized (try_backends (next_attempt self)
                     (hw (S (current_attempt self)))).1.2 = true ∧
                  backend_agrees (try_backends (next_attempt self)
                     (hw (S (current_attempt self)))).1.2) ∧
                 ((try_backends (next_attempt self)
                     (hw (S (current_attempt self)))).1.1 = false →
                  initialized (try_backends (next_attempt self)
                     (hw (S (current_attempt self)))).1.2 = initialized self))
      by (unfold backend_agrees;
          destruct (hw _) as [[|[]] [|[]]|]; simpl; split; try done;
          intros _; split; auto);
    destruct (try_backends _ _) as [[[] self1] tr]; simpl in *;
    destruct Ht as [Ht1 Ht2]; try (split; [auto|done]).
  all: destruct (_ <? _)%nat eqn:Hlt; simpl; try (split; [done|auto]).
  - apply Nat.ltb_lt in Hlt. lia.
  - apply Nat.ltb_lt in Hlt.
    destruct (IH self1 hw ltac:(lia)) as [I1 I2].
    split; [done|]. intros E. rewrite I2 by done. auto.
Qed.

(** X1. [initialize] on an object that is not initialised returns
    exactly the new value of its [initialized] flag, and when it returns
    [True] the driver object and the backend name agree. *)
Theorem initialize_reports_the_flag (self : PiCamera) (hw : nat → Attempt) :
  initialized self = false →
  initialized (initialize self hw).1.2 = (initialize self hw).1.1 ∧
  ((initialize self hw).1.1 = true → backend_agrees (initialize self hw).1.2).
Proof.
  intros Hi. destruct (initialize_outcome _ self hw (Nat.le_refl _)) as [H1 H2].
  split; [|intros E; by apply H1].
  destruct (initialize self hw).1.1 eqn:E; [by apply H1|].
  rewrite H2; done.
Qed.

Lemma initialize_reports_the_flag_witness :
  let late := λ n, if (n <? 2)%nat then Probes (Down true) (Down false)
                   else Probes (Down false) Up in
  let r := initialize (__init__ false "temp_images") late in
  r.1.1 = true ∧ initialized r.1.2 = true ∧
  camera r.1.2 = Some LegacyPiCamera ∧ camera_type r.1.2 = Some legacy.
Proof.
  intros late r.
  destruct (initialize_reports_the_flag (__init__ false "temp_images") late eq_refl)
    as [H1 H2].
  assert (E : r.1.1 = true) by (vm_compute; reflexivity).
  split_and!; [exact E | subst r; rewrite H1; exact E | vm_compute; reflexivity
              | vm_compute; reflexivity].
Defined.

Lemma try_backends_driver_present self a :
  driver_present self → driver_present (try_backends (next_attempt self) a).1.2.
Proof.
  unfold driver_present. destruct a as [[|[]] [|[]]|]; simpl; eauto.
Qed.

Lemma initialize_frame self hw :
  max_init_attempts (initialize self hw).1.2 = max_init_attempts self ∧
  no_camera (initialize self hw).1.2 = no_camera self ∧
  temp_dir (initialize self hw).1.2 = temp_dir self ∧
  (driver_present self → driver_present (initialize self hw).1.2).
Proof.
  split_and!.
  - apply (initialize_preserves (λ s, max_init_attempts s = max_init_attempts self));
      [|done].
    intros s a <-. by destruct a as [[|[]] [|[]]|].
  - apply (initialize_preserves (λ s, no_camera s = no_camera self));
      [|done].
    intros s a <-. by destruct a as [[|[]] [|[]]|].
  - apply (initialize_preserves (λ s, temp_dir s = temp_dir self));
      [|done].
    intros s a <-. by destruct a as [[|[]] [|[]]|].
  - apply (initialize_preserves driver_present).
    intros s a. apply try_backends_driver_present.
Qed.

Lemma cleanup_frame self partial (fs : FS) :
  max_init_attempts (cleanup self partial fs).1 = max_init_attempts self ∧
  no_camera (cleanup self partial fs).1 = no_camera self ∧
  temp_dir (cleanup self partial fs).1 = temp_dir self ∧
  current_attempt (cleanup self partial fs).1 = current_attempt self ∧
  camera (cleanup self partial fs).1 = None ∧
  (driver_present self → driver_present (cleanup self partial fs).1).
Proof.
  unfold cleanup, driver_present.
  destruct (camera self) eqn:E, (negb partial && negb (no_camera self)); simpl;
    split_and!; try done; by rewrite ?E.
Qed.

Lemma kept_trans s1 s2 s3 tr1 tr2 :
  kept s1 s2 tr1 → kept s2 s3 tr2 → kept s1 s3 (tr1 ++ tr2).
Proof.
  intros (A1 & A2 & A3 & A4 & A5) (B1 & B2 & B3 & B4 & B5).
  unfold kept. rewrite count_app. split_and!; try congruence; auto. lia.
Qed.

Lemma initialize_kept self hw :
  kept self (initialize self hw).1.2 (initialize self hw).2.
Proof.
  destruct (initialize_frame self hw) as (F1 & F2 & F3 & F4).
  destruct (initialize_attempts _ self hw (Nat.le_refl _))
    as (attempts & E1 & E2 & E3 & E4 & E5 & _).
  unfold kept. split_and!; try done.
  rewrite E1, delays_between_count by done.
  unfold retries_left. rewrite E4, E5. lia.
Qed.

Lemma cleanup_kept self partial (fs : FS) :
  kept self (cleanup self partial fs).1 [].
Proof.
  destruct (cleanup_frame self partial fs) as (F1 & F2 & F3 & F4 & F5 & F6).
  unfold kept, retries_left. rewrite F1, F4. split_and!; done.
Qed.

Lemma legacy_attempts_no_delay todo (fs : FS) env :
  count (is_sleep 10000) (legacy_attempts todo fs env).2 = 0%nat.
Proof.
  revert fs. induction todo as [|a todo IH]; intros fs; simpl; [done|].
  destruct (_ && _); [done|]. destruct (_ <? _)%nat; [|done].
  specialize (IH (shoot fs (filename env) (shots env a))).
  by destruct (legacy_attempts todo _ env) as [[ok fs2] tr].
Qed.

Lemma capture_body_no_delay self (fs : FS) env :
  count (is_sleep 10000) (capture_body self fs env).2 = 0%nat.
Proof.
  unfold capture_body. destruct (camera_type self) as [[]|].
  - destruct (capture_picamera2 fs env) as [ok fs1]. by destruct (_ && _).
  - pose proof (legacy_attempts_no_delay (seq 0 max_attempts) fs env) as H.
    unfold capture_legacy.
    destruct (legacy_attempts _ fs env) as [[ok fs1] tr]. by destruct (_ && _).
  - done.
  - done.
Qed.

Lemma kept_refl self tr : count (is_sleep 10000) tr = 0%nat → kept self self tr.
Proof. intros E. unfold kept. rewrite E. split_and!; done. Qed.

Lemma capture_image_kept self (fs : FS) env hw :
  kept self (capture_image self fs env hw).1.1.2 (capture_image self fs env hw).2.
Proof.
  unfold capture_image. destruct (_ || _); [by apply kept_refl|].
  pose proof (capture_body_no_delay self fs env) as Hb.
  destruct (capture_body self fs env) as [[[p|] fs1] tr]; simpl in Hb;
    [by apply kept_refl|].
  pose proof (cleanup_kept self true fs1) as Hc.
  destruct (cleanup self true fs1) as [self1 fs2]. simpl in Hc.
  pose proof (initialize_kept self1 hw) as Hi.
  destruct (initialize self1 hw) as [[r self2] tr2]. simpl in *.
  pose proof (kept_trans _ _ _ _ _ Hc Hi) as (A1 & A2 & A3 & A4 & A5).
  unfold kept. split_and!; try done.
  rewrite count_app, Hb. simpl in *. done.
Qed.

Lemma capture_frame_kept self res raster :
  kept self (capture_frame self res raster).1.2 (capture_frame self res raster).2.
Proof.
  unfold capture_frame. destruct (_ || _); [by apply kept_refl|].
  destruct (camera_type self) as [[]|]; try destruct raster; simpl;
    try destruct (negb _); unfold kept, retries_left, driver_present; simpl;
    split_and!; done.
Qed.

Lemma check_health_kept self (fs : FS) env hw :
  kept self (check_health self fs env hw).1.1.2 (check_health self fs env hw).2.
Proof.
  unfold check_health. destruct (no_camera self); [by apply kept_refl|].
  destruct (_ || _).
  { pose proof (initialize_kept self hw) as Hi.
    by destruct (initialize self hw) as [[r self1] tr]. }
  pose proof (capture_image_kept self fs env hw) as Hc.
  destruct (capture_image self fs env hw) as [[[p self1] fs1] tr]. simpl in Hc.
  match goal with |- context [match ?probe with Some _ => _ | None => _ end] =>
    destruct probe as [q|] end; [done|].
  pose proof (cleanup_kept self1 true fs1) as Hc2.
  destruct (cleanup self1 true fs1) as [self2 fs2]. simpl in Hc2.
  pose proof (initialize_kept self2 hw) as Hi.
  destruct (initialize self2 hw) as [[r self3] tr3]. simpl in *.
  pose proof (kept_trans _ _ _ _ _ Hc2 Hi) as H23. simpl in H23.
  exact (kept_trans _ _ _ _ _ Hc H23).
Qed.

Lemma call_kept s c :
  ∃ tr, log (call s c).2 = log s ++ tr ∧ kept (object s) (object (call s c).2) tr.
Proof.
  destruct c as [hw|partial|env hw|res raster|env hw]; simpl.
  - pose proof (initialize_kept (object s) hw) as H.
    destruct (initialize (object s) hw) as [[r self1] tr]. by exists tr.
  - pose proof (cleanup_kept (object s) partial (disk s)) as H.
    destruct (cleanup (object s) partial (disk s)) as [self1 fs1].
    exists []. by rewrite app_nil_r.
  - pose proof (capture_image_kept (object s) (disk s) env hw) as H.
    destruct (capture_image (object s) (disk s) env hw) as [[[p self1] fs1] tr].
    by exists tr.
  - pose proof (capture_frame_kept (object s) res raster) as H.
    destruct (capture_frame (object s) res raster) as [[f self1] tr]. by exists tr.
  - pose proof (check_health_kept (object s) (disk s) env hw) as H.
    destruct (check_health (object s) (disk s) env hw) as [[[r self1] fs1] tr].
    by exists tr.
Qed.

Lemma calls_kept cs : ∀ s,
  ∃ tr, log (calls s cs) = log s ++ tr ∧ kept (object s) (object (calls s cs)) tr.
Proof.
  induction cs as [|c cs IH]; intros s.
  - exists []. rewrite app_nil_r. split; [done|]. by apply kept_refl.
  - simpl. destruct (call_kept s c) as (tr1 & L1 & K1).
    destruct (IH (call s c).2) as (tr2 & L2 & K2).
    exists (tr1 ++ tr2). rewrite L2, L1, app_assoc. split; [done|].
    by eapply kept_trans.
Qed.

(** X2. Whatever methods are called on a [PiCamera] object, in whatever
    order and against whatever hardware: the attempt budget stays three,
    the disabled flag and the scratch directory stay what the constructor
    read, and an object that says it is initialised holds a driver. *)
Theorem camera_object_invariant (nc : bool) (dir : string) (fs : FS)
    (cs : list Call) :
  let self := object (calls (fresh nc dir fs) cs) in
  max_init_attempts self = 3%nat ∧ no_camera self = nc ∧ temp_dir self = dir ∧
  (initialized self = true → is_Some (camera self)).
Proof.
  intros self. subst self.
  destruct (calls_kept cs (fresh nc dir fs)) as (tr & _ & K1 & K2 & K3 & K4 & _).
  split_and!; try done. apply K4. by intros H.
Qed.

(** X3. Over the whole life of a [PiCamera] object the ten-second
    retry delay of [initialize] is slept at most twice, however many times
    [initialize], [capture_image] and [check_health] are called and fail. *)
Theorem camera_lifetime_retry_delays (nc : bool) (dir : string) (fs : FS)
    (cs : list Call) :
  (count (is_sleep 10000) (log (calls (fresh nc dir fs) cs)) ≤ 2)%nat.
Proof.
  destruct (calls_kept cs (fresh nc dir fs)) as (tr & -> & _ & _ & _ & _ & K5).
  simpl. unfold retries_left in K5. simpl in K5. lia.
Qed.

Lemma call_disabled dir (fs : FS) c :
  failed (call (fresh true dir fs) c).1 ∧
  (call (fresh true dir fs) c).2 = fresh true dir fs.
Proof.
  destruct c as [hw|partial|env hw|res raster|env hw]; simpl.
  - rewrite (initialize_body (__init__ true dir) hw). by simpl.
  - unfold cleanup. simpl. by rewrite andb_false_r.
  - done.
  - done.
  - done.
Qed.

(** X4. A camera disabled by [NO_CAMERA=1] is inert: whatever methods
    are called, the object and the file system stay as the constructor
    left them (a full [cleanup] included), no hardware is probed, nothing
    is slept, and every call reports failure. *)
Theorem disabled_camera_is_inert (dir : string) (fs : FS) (cs : list Call)
    (c : Call) :
  calls (fresh true dir fs) cs = fresh true dir fs ∧
  failed (call (calls (fresh true dir fs) cs) c).1.
Proof.
  assert (E : calls (fresh true dir fs) cs = fresh true dir fs).
  { induction cs as [|c' cs IH]; [done|]. simpl.
    destruct (call_disabled dir fs c') as [_ ->]. exact IH. }
  rewrite E. split; [done|]. apply call_disabled.
Qed.



Lemma driverless_capture_image self (fs : FS) env hw :
  camera self = None → capture_image self fs env hw = (None, self, fs, []).
Proof.
  intros E. unfold capture_image. rewrite E. simpl.
  by rewrite !orb_true_r.
Qed.

Lemma driverless_capture_frame self res raster :
  camera self = None → capture_frame self res raster = (None, self, []).
Proof.
  intros E. unfold capture_frame. rewrite E. simpl.
  by rewrite !orb_true_r.
Qed.




(** X8. The legacy backend against a driver that never raises and
    leaves the bytes [b i] at the final path at attempt [i]: the call
    returns the path at the first of the three attempts whose bytes are
    not empty, having slept one second per earlier attempt, with exactly
    those bytes published and the object untouched; when all three are
    empty it returns [None], leaves the empty file, releases the driver,
    sleeps two seconds and reinitialises. *)
Theorem legacy_capture_retries (self : PiCamera) (fs : FS) (env : Still)
    (hw : nat → Attempt) (b : nat → list byte) :
  no_camera self = false → initialized self = true → is_Some (camera self) →
  camera_type self = Some legacy →
  (∀ i, shots env i = {| written := Some (b i); raises := false |}) →
  capture_image self fs env hw =
    match first_good b with
    | Some i =>
        (Some (filename env), self, <[filename env := b i]> fs,
         replicate i (Slept 1000))
    | None =>
        (None, (initialize (set_released self) hw).1.2,
         <[filename env := []]> fs,
         [Slept 1000; Slept 1000; Slept 2000]
           ++ (initialize (set_released self) hw).2)
    end.
Proof.
  intros Hn Hi Hc Ht Hs. rewrite capture_image_ready by done.
  unfold capture_body, capture_legacy, first_good. rewrite Ht.
  unfold max_attempts. simpl. rewrite !Hs. unfold shoot, exists_nonempty. simpl.
  rewrite !insert_insert_eq, !lookup_insert_eq.
  destruct (b 0%nat) as [|x0 l0] eqn:E0; simpl;
    [|rewrite ?insert_insert_eq, ?lookup_insert_eq; simpl; by rewrite ?E0].
  destruct (b 1%nat) as [|x1 l1] eqn:E1; simpl;
    [|rewrite ?insert_insert_eq, ?lookup_insert_eq; simpl; by rewrite ?E1].
  destruct (b 2%nat) as [|x2 l2] eqn:E2; simpl;
    [|rewrite ?insert_insert_eq, ?lookup_insert_eq; simpl; by rewrite ?E2].
  rewrite ?insert_insert_eq, ?lookup_insert_eq. unfold cleanup. simpl.
  destruct (camera self) eqn:Ecam; [|by destruct Hc].
  by destruct (initialize (set_released self) hw) as [[r self2] tr2].
Qed.

Lemma legacy_capture_retries_witness :
  let env := {| filename := "temp_images/image_1700000000_0a1b2c3d.jpg";
                tmp_path := "/tmp/tmpk3v9x2.jpg";
                shots := λ i, {| written := Some (if (i <? 1)%nat then [] else [x07]);
                                 raises := false |};
                rename_raises := false |} in
  capture_image legacy_ready ∅ env hardware_up
  = (Some (filename env), legacy_ready, {[ filename env := [x07] ]}, [Slept 1000]).
Proof.
  intros env.
  rewrite (legacy_capture_retries legacy_ready ∅ env hardware_up
             (λ i, if (i <? 1)%nat then [] else [x07])).
  - reflexivity.
  - reflexivity.
  - reflexivity.
  - simpl. eauto.
  - reflexivity.
  - intros i. reflexivity.
Defined.

Lemma capture_image_success_keeps_object self (fs : FS) env hw p :
  (capture_image self fs env hw).1.1.1 = Some p →
  (capture_image self fs env hw).1.1.2 = self ∧
  (capture_image self fs env hw).2 = (capture_body self fs env).2 ∧
  no_camera self = false ∧ initialized self = true ∧ is_Some (camera self).
Proof.
  unfold capture_image.
  destruct (no_camera self || negb (initialized self)
            || negb (bool_decide (is_Some (camera self)))) eqn:G; [done|].
  apply orb_false_iff in G as [G Gc]. apply orb_false_iff in G as [Gn Gi].
  apply negb_false_iff in Gi, Gc. apply bool_decide_eq_true in Gc.
  destruct (capture_body self fs env) as [[[q|] fs1] tr]; [done|].
  destruct (cleanup self true fs1) as [self1 fs2].
  by destruct (initialize self1 hw) as [[r self2] tr2].
Qed.

(** X9. [check_health] returns [True] only for a camera that is up when
    the call ends: enabled, initialised and holding a driver. *)
Theorem check_health_true_means_ready (self : PiCamera) (fs : FS) (env : Still)
    (hw : nat → Attempt) :
  (check_health self fs env hw).1.1.1 = true →
  no_camera (check_health self fs env hw).1.1.2 = false ∧
  initialized (check_health self fs env hw).1.1.2 = true ∧
  is_Some (camera (check_health self fs env hw).1.1.2).
Proof.
  assert (Hinit : ∀ s, no_camera s = false → (initialize s hw).1.1 = true →
            no_camera (initialize s hw).1.2 = false ∧
            initialized (initialize s hw).1.2 = true ∧
            is_Some (camera (initialize s hw).1.2)).
  { intros s Hs Hr. destruct (initialize_frame s hw) as (_ & F2 & _).
    destruct (initialize_outcome _ s hw (Nat.le_refl _)) as [H1 _].
    destruct (H1 Hr) as [Hi [[-> _] | [-> _]]]; split_and!; eauto; congruence. }
  unfold check_health. destruct (no_camera self) eqn:Hn; [done|].
  destruct (_ || _).
  { specialize (Hinit self Hn).
    destruct (initialize self hw) as [[r self1] tr]. simpl in *. auto. }
  pose proof (capture_image_success_keeps_object self fs env hw) as Hk.
  pose proof (capture_image_kept self fs env hw) as (_ & K2 & _).
  destruct (capture_image self fs env hw) as [[[p self1] fs1] tr].
  simpl in Hk, K2.
  match goal with |- context [match ?probe with Some _ => _ | None => _ end] =>
    destruct probe as [q|] eqn:Eq end.
  - destruct p as [p|]; [|done]. destruct (Hk p eq_refl) as (-> & _ & ? & ? & ?).
    simpl. done.
  - destruct (cleanup_frame self1 true fs1) as (_ & F2 & _).
    destruct (cleanup self1 true fs1) as [self2 fs2]. simpl in F2.
    specialize (Hinit self2 ltac:(congruence)).
    destruct (initialize self2 hw) as [[r self3] tr3]. simpl in *. auto.
Qed.

Lemma check_health_true_means_ready_witness :
  (check_health (__init__ false "temp_images") ∅ (still_writing [x01])
     hardware_up).1.1.1 = true ∧
  initialized (check_health (__init__ false "temp_images") ∅
                 (still_writing [x01]) hardware_up).1.1.2 = true.
Proof.
  assert (E : (check_health (__init__ false "temp_images") ∅
                 (still_writing [x01]) hardware_up).1.1.1 = true)
    by (vm_compute; reflexivity).
  split; [exact E|].
  exact (proj1 (proj2 (check_health_true_means_ready _ _ _ _ E))).
Defined.

Lemma capture_image_picamera2_cases self (fs : FS) env hw :
  no_camera self = false → initialized self = true → is_Some (camera self) →
  camera_type self = Some picamera2 →
  ((capture_picamera2 fs env).1 = false ∧
   (capture_image self fs env hw).1.1.1 = None ∧
   (capture_image self fs env hw).1.2 = delete (tmp_path env) fs) ∨
  (∃ b, b ≠ [] ∧ (capture_picamera2 fs env).1 = true ∧
        capture_image self fs env hw
        = (Some (filename env), self,
           <[filename env := b]> (delete (tmp_path env) fs), [])).
Proof.
  intros Hn Hi Hc Ht. rewrite capture_image_ready by done.
  unfold capture_body. rewrite Ht.
  destruct (capture_picamera2_spec fs env) as [[E1 E2]|(b & Hb & Hw & E1 & E2)];
    destruct (capture_picamera2 fs env) as [ok fs1]; simpl in E1, E2; subst.
  - left. split; [done|]. cbn [andb]. cbv beta iota.
    destruct (cleanup self true (delete (tmp_path env) fs)) as [self1 fs2] eqn:Ec.
    assert (fs2 = delete (tmp_path env) fs)
      by (unfold cleanup in Ec; simpl in Ec; congruence).
    subst fs2. by destruct (initialize self1 hw) as [[r self2] tr2].
  - right. exists b. split; [done|]. split; [done|].
    assert (Hex : exists_nonempty
              (<[filename env:=b]> (delete (tmp_path env) fs)) (filename env) = true).
    { apply exists_nonempty_spec. exists b. by rewrite lookup_insert_eq. }
    cbn [andb]. by rewrite Hex.
Qed.

(** X10. A health check of a ready picamera2 camera leaves no probe
    artifact: whether the probe succeeds or fails, the file system after
    the call is the one before it (without the scratch file); and when
    the driver delivers a non-empty image the check passes with the
    object untouched and nothing slept. *)
Theorem check_health_leaves_no_artifact (self : PiCamera) (fs : FS)
    (env : Still) (hw : nat → Attempt) :
  no_camera self = false → initialized self = true → is_Some (camera self) →
  camera_type self = Some picamera2 →
  fs !! filename env = None → tmp_path env ≠ filename env →
  filename env ≠ "" →
  let out := check_health self fs env hw in
  out.1.2 = delete (tmp_path env) fs ∧
  ((capture_picamera2 fs env).1 = true →
   out.1.1.1 = true ∧ out.1.1.2 = self ∧ out.2 = []).
Proof.
  intros Hn Hi Hc Ht Hfresh Hne Hname out. subst out.
  unfold check_health. rewrite Hn, Hi, bool_decide_true by done. cbn [negb orb].
  destruct (capture_image_picamera2_cases self fs env hw Hn Hi Hc Ht)
    as [(Eok & E1 & E2) | (b & Hb & Eok & E)].
  - rewrite Eok.
    destruct (capture_image self fs env hw) as [[[p self1] fs1] tr].
    simpl in E1, E2. subst p fs1. cbv beta iota.
    destruct (cleanup self1 true (delete (tmp_path env) fs)) as [self2 fs2] eqn:Ec.
    assert (fs2 = delete (tmp_path env) fs)
      by (unfold cleanup in Ec; simpl in Ec; congruence).
    subst fs2. by destruct (initialize self2 hw) as [[r self3] tr3].
  - rewrite E. cbv beta iota.
    destruct (decide (filename env = "")); [done|].
    rewrite lookup_insert_eq, bool_decide_true by eauto. cbv beta iota.
    split; [|done]. cbn [fst snd].
    rewrite delete_insert_eq. apply delete_id.
    by rewrite lookup_delete_ne.
Qed.

Lemma check_health_leaves_no_artifact_witness :
  let out := check_health picamera2_ready ∅ (still_writing [x01]) hardware_up in
  out.1.2 = delete (tmp_path (still_writing [x01])) ∅ ∧ out.1.1.1 = true.
Proof.
  intros out.
  destruct (check_health_leaves_no_artifact picamera2_ready ∅
              (still_writing [x01]) hardware_up) as [H1 H2].
  - reflexivity.
  - reflexivity.
  - simpl. eauto.
  - reflexivity.
  - reflexivity.
  - vm_compute. discriminate.
  - vm_compute. discriminate.
  - split; [exact H1|]. apply H2. vm_compute. reflexivity.
Defined.

End CameraObject.

(** ** What the session sends, and when *)

Section Emissions.
Import Client.

Section CameraEffects.
Variable P : Effect → Prop.
Hypothesis P_slept : ∀ ms, P (Slept ms).
Hypothesis P_probed : ∀ d, P (Probed d).

Lemma initialize_Forall self hw : Forall P (Camera.initialize self hw).2.
Proof.
  destruct (initialize_attempts _ self hw (Nat.le_refl _))
    as (attempts & -> & Hshape & _).
  apply delays_between_Forall; [done|].
  eapply Forall_impl; [exact Hshape|].
  intros a [-> | [-> | [-> | ->]]]; repeat constructor; auto.
Qed.

Lemma legacy_attempts_Forall todo (fs0 : FS) env :
  Forall P (Camera.legacy_attempts todo fs0 env).2.
Proof.
  revert fs0. induction todo as [|a todo IH]; intros fs0; simpl; [constructor|].
  destruct (_ && _); [constructor|].
  destruct (_ <? _)%nat; [|constructor].
  specialize (IH (Camera.shoot fs0 (Camera.filename env) (Camera.shots env a))).
  destruct (Camera.legacy_attempts todo _ env) as [[ok fs2] tr].
  by constructor.
Qed.

Lemma capture_image_Forall self (fs0 : FS) env hw :
  Forall P (Camera.capture_image self fs0 env hw).2.
Proof.
  unfold Camera.capture_image. destruct (_ || _); [constructor|].
  assert (Hb : Forall P (Camera.capture_body self fs0 env).2).
  { unfold Camera.capture_body.
    destruct (Camera.camera_type self) as [[]|].
    - destruct (Camera.capture_picamera2 fs0 env) as [ok fs1].
      destruct (_ && _); constructor.
    - pose proof (legacy_attempts_Forall (seq 0 Camera.max_attempts) fs0 env) as H.
      unfold Camera.capture_legacy.
      destruct (Camera.legacy_attempts _ fs0 env) as [[ok fs1] tr].
      by destruct (_ && _).
    - simpl. constructor.
    - simpl. constructor. }
  destruct (Camera.capture_body self fs0 env) as [[[p|] fs1] tr]; [done|].
  destruct (Camera.cleanup self true fs1) as [self1 fs2].
  pose proof (initialize_Forall self1 hw) as Hi.
  destruct (Camera.initialize self1 hw) as [[r self2] tr2]. simpl in *.
  apply Forall_app. split; [done|]. by constructor.
Qed.

Lemma capture_frame_Forall self res raster :
  Forall P (Camera.capture_frame self res raster).2.
Proof.
  unfold Camera.capture_frame. destruct (_ || _); [constructor|].
  destruct (Camera.camera_type self) as [[]|]; try destruct raster;
    simpl; try destruct (negb _); repeat constructor; auto.
Qed.

End CameraEffects.

Lemma silent_permitted w ev ext : Forall silent ext → Forall (permitted w ev) ext.
Proof. intros H. eapply Forall_impl; [exact H|]. by intros []. Qed.

Lemma main_loop_silent w env :
  ∃ ext, trace (main_loop w env).2 = trace w ++ ext ∧ Forall silent ext.
Proof.
  unfold main_loop.
  assert (H1 : ∃ ext, trace (ensure_camera w env).2 = trace w ++ ext ∧
                      Forall silent ext).
  { unfold ensure_camera. destruct (camera w).
    - exists []. by rewrite app_nil_r.
    - pose proof (initialize_Forall silent (λ _, I) (λ _, I)
                    (Camera.__init__ (NO_CAMERA (cfg w)) (TEMP_IMAGE_DIR (cfg w)))
                    (hw env)) as Hi.
      destruct (Camera.initialize _ _) as [[r cam] tr]. by exists tr. }
  destruct H1 as (ext1 & E1 & S1).
  destruct (ensure_camera w env) as [[] w1]; simpl in *.
  - destruct (connect_and_register_frame w1 env) as (_ & _ & E2).
    destruct (connect_and_register w1 env) as [[] w2]; simpl in *.
    + exists ext1. split; [congruence|done].
    + destruct (main_loop_finally_frame (emit [Slept 10000] w2))
        as (_ & _ & mid & E3 & Hmid).
      exists (ext1 ++ Slept 10000 :: mid).
      rewrite E3. simpl. rewrite E2, E1, <- !app_assoc. split; [done|].
      apply Forall_app. split; [done|]. constructor; [done|].
      destruct Hmid as [-> | [c ->]]; repeat constructor.
  - destruct (main_loop_finally_frame (set_stop_event true w1))
      as (_ & _ & mid & E3 & Hmid).
    exists (ext1 ++ mid). rewrite E3. simpl. rewrite E1, <- app_assoc.
    split; [done|]. apply Forall_app. split; [done|].
    destruct Hmid as [-> | [c ->]]; repeat constructor.
Qed.

Lemma capture_and_send_image_emits c w env :
  ∃ ext, trace (capture_and_send_image c w env).2 = trace w ++ ext ∧
    Forall (λ e, match e with
                 | Sent cn en =>
                     (∃ ws, websocket w = Some ws ∧ conn ws = cn ∧ open ws = true) ∧
                     ∃ bytes, bytes ≠ [] ∧
                       en = Image (DEVICE_ID (cfg w)) bytes (now env) c check_battery
                 | _ => True
                 end) ext.
Proof.
  unfold capture_and_send_image.
  destruct (camera w) as [cam|]; [|exists []; by rewrite app_nil_r].
  destruct (websocket w) as [ws|] eqn:Hws; [|exists []; by rewrite app_nil_r].
  pose proof (capture_image_Forall silent (λ _, I) (λ _, I)
                cam (fs w) (still env) (hw env)) as Hsil.
  pose proof (capture_image_artifact cam (fs w) (still env) (hw env)) as Hart.
  destruct (Camera.capture_image cam (fs w) (still env) (hw env))
    as [[[p cam1] fs1] tr]. simpl in Hsil, Hart.
  assert (Hq : Forall (λ e, match e with
                 | Sent cn en =>
                     (∃ ws0, Some ws = Some ws0 ∧ conn ws0 = cn ∧ open ws0 = true) ∧
                     ∃ bytes, bytes ≠ [] ∧
                       en = Image (DEVICE_ID (cfg w)) bytes (now env) c check_battery
                 | _ => True
                 end) tr)
    by (eapply Forall_impl; [exact Hsil|]; by intros []).
  unfold truthy. destruct p as [p|]; [|by exists tr].
  destruct (decide (p = "")); [by exists tr|].
  destruct (Hart p eq_refl) as [_ Hne]. apply exists_nonempty_spec in Hne
    as (bytes & Hb & Hnb).
  destruct (read_raises env); [by exists tr|]. rewrite Hb.
  unfold ws_send. simpl. rewrite Hws.
  destruct (open ws) eqn:Hopen; [|by exists tr].
  destruct (send env); simpl; try by exists tr.
  exists (tr ++ [Sent (conn ws)
                   (Image (DEVICE_ID (cfg w)) bytes (now env) c check_battery)]).
  rewrite app_assoc. split; [done|]. apply Forall_app. split; [done|].
  constructor; [|constructor]. split; [by exists ws|by exists bytes].
Qed.

(** Every event extends the effects by permitted ones. *)
Lemma step_emits w ev :
  ∃ ext, trace (step w ev) = trace w ++ ext ∧ Forall (permitted w ev) ext.
Proof.
  assert (Hnil : ∀ l, l = trace w →
            ∃ ext, l = trace w ++ ext ∧ Forall (permitted w ev) ext)
    by (intros l ->; exists []; by rewrite app_nil_r).
  assert (Hsleep : ∀ l ms, l = trace w ++ [Slept ms] →
            ∃ ext, l = trace w ++ ext ∧ Forall (permitted w ev) ext)
    by (intros l ms ->; exists [Slept ms]; split; [done|by repeat constructor]).
  destruct ev as [| |env|t env]; simpl.
  - by apply Hnil.
  - apply Hnil. by destruct (websocket w).
  - unfold main, main_after_loop. destruct (main_task w) as [|children|].
    + destruct (stop_event w); [by apply Hnil|].
      destruct (main_loop_silent w env) as (ext & E & Hs).
      destruct (main_loop w env) as [[children|] w1]; simpl in *.
      * exists ext. split; [done|by apply silent_permitted].
      * destruct (stop_event w1); simpl.
        -- exists ext. split; [done|by apply silent_permitted].
        -- exists (ext ++ [Slept 5000]). rewrite E, <- app_assoc. split; [done|].
           apply silent_permitted, Forall_app. split; [done|by repeat constructor].
    + destruct (all_done children w); [|by apply Hnil].
      destruct (main_loop_finally_frame w) as (_ & _ & mid & E & Hmid).
      assert (Forall silent mid)
        by (destruct Hmid as [-> | [c ->]]; repeat constructor).
      destruct (stop_event _); simpl.
      * exists mid. split; [done|by apply silent_permitted].
      * exists (mid ++ [Slept 5000]). rewrite E, <- app_assoc. split; [done|].
        apply silent_permitted, Forall_app. split; [done|by repeat constructor].
    + by apply Hnil.
  - destruct (find_task t w) as [self|] eqn:Hf; [|by apply Hnil].
    destruct (coro self) as [pc| | |v started] eqn:Hc.
    + destruct pc as [| |children]; simpl.
      * destruct (stop_event w); [by apply Hnil|].
        destruct (recv env) as [m| | |] eqn:Hr; try by apply Hnil.
        -- unfold dispatch. destruct (msg_type m) as [ty|] eqn:Hty; [|by apply Hnil].
           repeat case_decide; try by apply Hnil.
           ++ destruct (capture_and_send_image_emits (msg_client_id m) w env)
                as (ext & E & Hext).
              exists ext. split; [done|].
              eapply Forall_impl; [exact Hext|].
              intros [| |cn en|]; simpl; try done.
              intros (Hws & bytes & Hb & ->). simpl.
              split_and!; [done|done|].
              exists t, env, self. split_and!; try done.
              exists m. subst ty. by split_and!.
           ++ apply Hnil. by destruct (truthy _).
           ++ apply Hnil. destruct (truthy _); [|done]. by destruct (_ !! _).
        -- by apply (Hsleep _ 5000%Z).
        -- by apply (Hsleep _ 5000%Z).
      * destruct (main_loop_silent w env) as (ext & E & Hs).
        exists ext. split; [|by apply silent_permitted].
        by destruct (main_loop w env) as [[children|] w1].
      * destruct (all_done children w); [|by apply Hnil].
        destruct (main_loop_finally_frame w) as (_ & _ & mid & E & Hmid).
        exists mid. split; [done|]. apply silent_permitted.
        destruct Hmid as [-> | [c ->]]; repeat constructor.
    + unfold ping_server, keepalive, ws_send.
      destruct (stop_event w); [by apply Hnil|].
      destruct (websocket w) as [ws|] eqn:Hws; [|by apply (Hsleep _ 30000%Z)].
      destruct (open ws) eqn:Ho; [|by apply (Hsleep _ 30000%Z)].
      destruct (send env); simpl; try by apply Hnil.
      * exists [Sent (conn ws) (Ping (DEVICE_ID (cfg w)) (now env)); Slept 30000].
        rewrite <- app_assoc. split; [done|].
        constructor; [|by repeat constructor].
        split_and!; [by exists ws|done|]. by exists t, env, self.
      * by apply (Hsleep _ 30000%Z).
    + unfold send_status_updates, keepalive, ws_send.
      destruct (stop_event w); [by apply Hnil|].
      destruct (websocket w) as [ws|] eqn:Hws; [|by apply (Hsleep _ 60000%Z)].
      destruct (open ws) eqn:Ho; [|by apply (Hsleep _ 60000%Z)].
      destruct (send env); simpl; try by apply Hnil.
      * exists [Sent (conn ws)
                  (StatusUpdate (DEVICE_ID (cfg w)) check_battery (uptime env) (now env));
                Slept 60000].
        rewrite <- app_assoc. split; [done|].
        constructor; [|by repeat constructor].
        split_and!; [by exists ws|done|]. by exists t, env, self.
      * by apply (Hsleep _ 60000%Z).
    + assert (Hloop : ∀ w1, trace w1 = trace w → websocket w1 = websocket w →
                camera w1 = camera w → cfg w1 = cfg w →
                ∃ ext,
                  trace (let finally w' :=
                           finish (tid self)
                             (set_active_streams (delete v (active_streams w')) w') in
                         if default false (active_streams w1 !! v) && negb (stop_event w1)
                         then
                           match camera w1, websocket w1 with
                           | Some cam, Some ws =>
                               if negb (open ws) then finally w1
                               else
                                 let '(frame, cam1, tr) :=
                                   Camera.capture_frame cam (STREAM_RESOLUTION (cfg w1))
                                     (raster env) in
                                 let w2 := emit tr (set_camera (Some cam1) w1) in
                                 match frame with
                                 | None => emit [Slept 500] w2
                                 | Some f =>
                                     match ws_send w2 env
                                             (Frame (DEVICE_ID (cfg w2)) f (now env) v
                                                check_battery) with
                                     | (SendOk, w3) => w3
                                     | (SendClosed, w3) => finally w3
                                     | (SendError, w3) => emit [Slept 500] w3
                                     end
                                 end
                           | _, _ => emit [Slept 500] w1
                           end
                         else finally w1)
                  = trace w ++ ext ∧ Forall (permitted w (Resume t env)) ext).
      { intros w1 Etr Ews Ecam Ecfg. cbv zeta.
        destruct (_ && _); [|apply Hnil; simpl; congruence].
        rewrite Ecam, Ews.
        destruct (camera w) as [cam|]; [|apply (Hsleep _ 500%Z); simpl; congruence].
        destruct (websocket w) as [ws|] eqn:Hws;
          [|apply (Hsleep _ 500%Z); simpl; congruence].
        destruct (open ws) eqn:Ho; simpl; [|apply Hnil; simpl; congruence].
        pose proof (capture_frame_Forall silent (λ _, I)
                      cam (STREAM_RESOLUTION (cfg w1)) (raster env)) as Hsil.
        destruct (Camera.capture_frame _ _ _) as [[[f|] cam1] tr]; simpl in Hsil.
        2: { exists (tr ++ [Slept 500]). simpl. rewrite Etr, <- app_assoc.
             split; [done|]. apply silent_permitted, Forall_app.
             split; [done|by repeat constructor]. }
        unfold ws_send. simpl. rewrite Ews, Ho.
        destruct (send env); simpl.
        - exists (tr ++ [Sent (conn ws) (Frame (DEVICE_ID (cfg w1)) f (now env) v
                                          check_battery)]).
          rewrite Etr, <- app_assoc. split; [done|].
          apply Forall_app. split; [by apply silent_permitted|].
          constructor; [|constructor].
          split_and!; [by exists ws|by simpl; rewrite Ecfg|].
          exists t, env, self. split_and!; try done. by exists started.
        - exists tr. rewrite Etr. split; [done|by apply silent_permitted].
        - exists (tr ++ [Slept 500]). rewrite Etr, <- app_assoc.
          split; [done|]. apply silent_permitted, Forall_app.
          split; [done|by repeat constructor]. }
      unfold start_video_stream. destruct started.
      * by apply Hloop.
      * destruct (camera w) as [cam|] eqn:Hcam; [|by apply Hnil].
        destruct (websocket w) as [ws|] eqn:Hws; [|by apply Hnil].
        apply Hloop; simpl; done.
Qed.

End Emissions.

(** ** The session over time *)

Section SessionOverTime.
Import Client.

Ltac crush :=
  repeat (simpl in *; try done; case_match; simplify_eq/=).

Lemma settled_refl w : settled w w.
Proof. by split_and!. Qed.

Lemma settled_fields w w' :
  cfg w' = cfg w → token w' = token w → camera w' = camera w → settled w w'.
Proof.
  intros Ec Et Ecam. split_and!; [done|done|].
  unfold driverless. by rewrite Ecam.
Qed.

Lemma settled_trans w w1 w2 : settled w w1 → settled w1 w2 → settled w w2.
Proof.
  intros (Ec1 & Et1 & Ed1) (Ec2 & Et2 & Ed2). split_and!.
  - congruence.
  - intros H. rewrite Et2; [by apply Et1|]. by rewrite Et1.
  - auto.
Qed.

Lemma settled_then w w1 w2 :
  settled w w1 → cfg w2 = cfg w1 → token w2 = token w1 →
  camera w2 = camera w1 → settled w w2.
Proof. intros H ???. eapply settled_trans; [exact H|by apply settled_fields]. Qed.

Lemma main_loop_finally_driverless w :
  is_Some (camera w) → driverless (main_loop_finally w).
Proof.
  intros [cam Hcam]. unfold main_loop_finally.
  set (w1 := match websocket w with Some _ => _ | None => _ end).
  assert (Ecam : camera w1 = camera w)
    by (subst w1; by destruct (websocket w) as [[c []]|]).
  rewrite Ecam, Hcam.
  pose proof (cleanup_frame cam false (fs w1)) as (_ & _ & _ & _ & Hnone & _).
  destruct (Camera.cleanup cam false (fs w1)) as [cam1 fs1]. simpl in *.
  by exists cam1.
Qed.

Lemma main_loop_finally_settled w : settled w (main_loop_finally w).
Proof.
  split_and!.
  - unfold main_loop_finally. crush.
  - intros _. unfold main_loop_finally. crush.
  - intros (cam & Hcam & _). apply main_loop_finally_driverless. by exists cam.
Qed.

Lemma ensure_camera_settled w env : settled w (ensure_camera w env).2.
Proof.
  unfold ensure_camera. destruct (camera w) eqn:Hcam; [apply settled_refl|].
  destruct (Camera.initialize _ _) as [[r cam] tr]. simpl.
  split_and!; [done|done|]. intros (cam0 & H & _). congruence.
Qed.

Lemma connect_and_register_settled w env :
  settled w (connect_and_register w env).2.
Proof.
  unfold connect_and_register.
  destruct (truthy (token w)) eqn:Et.
  - apply settled_fields; by destruct (connection env).
  - split_and!.
    + by destruct (registration env), (connection env).
    + rewrite Et. by intros [? ?].
    + unfold driverless. by destruct (registration env), (connection env).
Qed.

Lemma main_loop_settled w env : settled w (main_loop w env).2.
Proof.
  unfold main_loop.
  pose proof (ensure_camera_settled w env) as H1.
  destruct (ensure_camera w env) as [[] w1]; simpl in *.
  - pose proof (connect_and_register_settled w1 env) as H2.
    destruct (connect_and_register w1 env) as [[] w2]; simpl in *.
    + eapply settled_then; [by eapply settled_trans|done..].
    + eapply settled_trans; [by eapply settled_trans|].
      eapply settled_trans; [|apply main_loop_finally_settled].
      by apply settled_fields.
  - eapply settled_trans; [exact H1|].
    eapply settled_trans; [|apply main_loop_finally_settled].
    by apply settled_fields.
Qed.

Lemma capture_and_send_image_settled c w env :
  settled w (capture_and_send_image c w env).2.
Proof.
  split_and!.
  - unfold capture_and_send_image, ws_send. crush.
  - intros _. unfold capture_and_send_image, ws_send. crush.
  - intros (cam & Hcam & Hnone). unfold capture_and_send_image.
    rewrite Hcam. destruct (websocket w); [|by exists cam].
    rewrite (driverless_capture_image _ _ _ _ Hnone). simpl. by exists cam.
Qed.

Lemma capture_and_send_image_driverless c w env :
  driverless w → trace (capture_and_send_image c w env).2 = trace w.
Proof.
  intros (cam & Hcam & Hnone). unfold capture_and_send_image.
  rewrite Hcam. destruct (websocket w); [|done].
  rewrite (driverless_capture_image _ _ _ _ Hnone). simpl.
  by rewrite app_nil_r.
Qed.

Lemma start_video_stream_driverless self v started w env :
  driverless w →
  driverless (start_video_stream self v started w env) ∧
  ∃ ext, trace (start_video_stream self v started w env) = trace w ++ ext ∧
         Forall silent ext.
Proof.
  intros (cam & Hcam & Hnone). unfold start_video_stream, driverless.
  assert (Hcf : ∀ res, Camera.capture_frame cam res (raster env) = (None, cam, []))
    by (intros res; by apply driverless_capture_frame).
  assert (Hnil : ∀ l, l = trace w → ∃ ext, l = trace w ++ ext ∧ Forall silent ext)
    by (intros l ->; exists []; by rewrite app_nil_r).
  assert (Hsl : ∀ l, l = trace w ++ [Slept 500] →
                 ∃ ext, l = trace w ++ ext ∧ Forall silent ext)
    by (intros l ->; exists [Slept 500]; split; [done|by repeat constructor]).
  destruct started; simpl; rewrite ?Hcam.
  - destruct (_ && _); simpl; [|split; [by exists cam|by apply Hnil]].
    destruct (websocket w) as [ws|]; simpl; [|split; [by exists cam|by apply Hsl]].
    destruct (open ws); simpl; [|split; [by exists cam|by apply Hnil]].
    rewrite Hcf. simpl. split; [by exists cam|].
    apply Hsl. by rewrite app_nil_r.
  - destruct (websocket w) as [ws|] eqn:Hws; simpl;
      [|split; [by exists cam|by apply Hnil]].
    rewrite ?Hcam, ?Hws.
    destruct (_ && _); simpl; [|split; [by exists cam|by apply Hnil]].
    destruct (open ws); simpl; [|split; [by exists cam|by apply Hnil]].
    rewrite Hcf. simpl. split; [by exists cam|].
    apply Hsl. by rewrite app_nil_r.
Qed.

Lemma start_video_stream_settled self v started w env :
  settled w (start_video_stream self v started w env).
Proof.
  split_and!.
  - unfold start_video_stream, ws_send. crush.
  - intros _. unfold start_video_stream, ws_send. crush.
  - intros H. by apply start_video_stream_driverless.
Qed.

Lemma keepalive_settled self period e w env :
  settled w (keepalive self period e w env).
Proof. apply settled_fields; unfold keepalive, ws_send; crush. Qed.

Lemma dispatch_settled self m w env : settled w (dispatch self m w env).
Proof.
  unfold dispatch. destruct (msg_type m); [|apply settled_refl].
  repeat case_decide; try apply settled_refl.
  - apply capture_and_send_image_settled.
  - destruct (truthy _); [by apply settled_fields|apply settled_refl].
  - destruct (truthy _); [|apply settled_refl].
    destruct (_ !! _); [by apply settled_fields|apply settled_refl].
Qed.

Lemma handle_server_messages_settled self pc w env :
  settled w (handle_server_messages self pc w env).
Proof.
  destruct pc as [| |children]; simpl.
  - destruct (stop_event w); [by apply settled_fields|].
    destruct (recv env).
    + apply dispatch_settled.
    + apply settled_refl.
    + by apply settled_fields.
    + by apply settled_fields.
  - pose proof (main_loop_settled w env) as H.
    destruct (main_loop w env) as [[children|] w1]; simpl in *;
      by eapply settled_then.
  - destruct (all_done children w); [|apply settled_refl].
    eapply settled_then; [apply main_loop_finally_settled|done..].
Qed.

Lemma main_settled w env : settled w (main w env).
Proof.
  unfold main, main_after_loop. destruct (main_task w) as [|children|].
  - destruct (stop_event w); [by apply settled_fields|].
    pose proof (main_loop_settled w env) as H.
    destruct (main_loop w env) as [[children|] w1]; simpl in *.
    + by eapply settled_then.
    + destruct (stop_event w1); by eapply settled_then.
  - destruct (all_done children w); [|apply settled_refl].
    destruct (stop_event _);
      (eapply settled_then; [apply main_loop_finally_settled|done..]).
  - apply settled_refl.
Qed.

Lemma step_settled w ev : settled w (step w ev).
Proof.
  destruct ev as [| |env|t env]; simpl.
  - by apply settled_fields.
  - destruct (websocket w); [by apply settled_fields|apply settled_refl].
  - apply main_settled.
  - destruct (find_task t w) as [self|]; [|apply settled_refl].
    destruct (coro self) as [pc| | |v started].
    + apply handle_server_messages_settled.
    + apply keepalive_settled.
    + apply keepalive_settled.
    + apply start_video_stream_settled.
Qed.

Lemma run_settled evs : ∀ w, settled w (run w evs).
Proof.
  induction evs as [|ev evs IH]; intros w; [apply settled_refl|].
  simpl. eapply settled_trans; [apply step_settled|apply IH].
Qed.

Lemma step_stop_monotone w ev :
  stop_event w = true → stop_event (step w ev) = true.
Proof.
  intros Hs. destruct ev as [| |env|t env]; simpl.
  - done.
  - by destruct (websocket w).
  - by rewrite main_stop, Hs.
  - destruct (find_task t w) as [self|]; [|done].
    destruct (coro self) as [pc| | |v started].
    + by rewrite handle_server_messages_stop, Hs.
    + unfold ping_server. by rewrite keepalive_stop.
    + unfold send_status_updates. by rewrite keepalive_stop.
    + by rewrite start_video_stream_stop.
Qed.

Lemma nothing_appended {A} (l ext : list A) : l = l ++ ext → ext = [].
Proof.
  intros E. rewrite <- (app_nil_r l) in E at 1. by apply app_inv_head in E.
Qed.

Lemma step_driverless_no_picture w ev :
  driverless w →
  ∃ ext, trace (step w ev) = trace w ++ ext ∧ Forall no_picture ext.
Proof.
  intros Hd. destruct (step_emits w ev) as (ext & E & Hp).
  exists ext. split; [done|].
  apply Forall_forall. intros e He.
  rewrite Forall_forall in Hp. specialize (Hp e He).
  destruct e as [| |c en|]; try done.
  destruct en as [d bytes ts cid b|d f ts v b| |]; try done; simpl in Hp; exfalso.
  - destruct Hp as (_ & _ & t & env & self & -> & Hf & _ & Hc & m & Hr & Hty & _).
    rewrite (step_resume _ _ _ _ Hf), Hc in E.
    unfold handle_server_messages in E.
    destruct (stop_event w).
    { apply nothing_appended in E. subst ext. by apply elem_of_nil in He. }
    rewrite Hr in E. unfold dispatch in E. rewrite Hty in E.
    rewrite decide_True in E by done.
    rewrite capture_and_send_image_driverless in E by done.
    apply nothing_appended in E. subst ext. by apply elem_of_nil in He.
  - destruct Hp as (_ & _ & t & env & self & -> & Hf & b' & Hc).
    rewrite (step_resume _ _ _ _ Hf), Hc in E.
    destruct (start_video_stream_driverless self v b' w env Hd)
      as (_ & ext' & E' & Hs).
    rewrite E' in E. apply app_inv_head in E as ->.
    rewrite Forall_forall in Hs. by apply (Hs _ He).
Qed.

(** X11. Whatever one scheduler event adds to the effects, an envelope
    among them went over the connection that was current and open
    before the event, carries the configured device identifier, and
    comes from the task the event resumed: a [frame] from a stream
    worker of the viewer it is tagged with, an [image] (never empty)
    from the router handling a [capture_request] and tagged with the
    requesting viewer, a [status_update] from the status loop, a [ping]
    from the ping loop.  A signal, a close from outside and a resumption
    of [main] send nothing. *)
Theorem step_effects_are_attributed (w : World) (ev : Event) :
  ∃ ext, trace (step w ev) = trace w ++ ext ∧ Forall (permitted w ev) ext.
Proof. apply step_emits. Qed.

(** X12. While there is no connection, or the connection is closed,
    no task sends anything: whatever the event, the effects grow only
    by sleeps, probes and closes. *)
Theorem closed_connection_sends_nothing (w : World) (ev : Event) :
  (∀ ws, websocket w = Some ws → open ws = false) →
  ∃ ext, trace (step w ev) = trace w ++ ext ∧ Forall silent ext.
Proof.
  intros Hclosed. destruct (step_emits w ev) as (ext & E & Hp).
  exists ext. split; [done|].
  eapply Forall_impl; [exact Hp|].
  intros [| |c en|]; simpl; try done.
  intros [(ws & Hws & _ & Ho) _]. rewrite (Hclosed _ Hws) in Ho. done.
Qed.

Lemma closed_connection_sends_nothing_witness :
  ∃ ext, trace (step (step serving PeerClosed) (Resume 1 quiet))
         = trace (step serving PeerClosed) ++ ext ∧ Forall silent ext.
Proof.
  apply closed_connection_sends_nothing.
  intros ws H. vm_compute in H. injection H as <-. reflexivity.
Defined.

(** X13. Over any run of the process from its start, every envelope
    sent carries the configured device identifier and every [image]
    envelope carries a non-empty picture. *)
Theorem every_envelope_is_labelled (c : Config) (disk : Camera.FS)
    (evs : list Event) :
  Forall (labelled (DEVICE_ID c)) (trace (run (boot c disk) evs)).
Proof.
  assert (H : ∀ evs w, Forall (labelled (DEVICE_ID (cfg w))) (trace w) →
                       Forall (labelled (DEVICE_ID (cfg w))) (trace (run w evs))).
  { clear. induction evs as [|ev evs IH]; intros w H; [done|]. simpl.
    pose proof (step_settled w ev) as (Ec & _). rewrite <- Ec. apply IH.
    rewrite Ec. destruct (step_emits w ev) as (ext & -> & Hp).
    apply Forall_app. split; [done|].
    eapply Forall_impl; [exact Hp|].
    intros [| |cn en|]; simpl; try done.
    intros (_ & Hd & t & env & self & _ & _ & Hx). split; [done|].
    destruct en; try done. by destruct Hx. }
  apply (H evs (boot c disk)). constructor.
Qed.

(** X14. A token, once held, is never replaced or dropped: only
    [connect_and_register] writes it, and only while none is held. *)
Theorem token_is_kept (w : World) (evs : list Event) :
  is_Some (truthy (token w)) → token (run w evs) = token w.
Proof. intros H. by apply (run_settled evs w). Qed.

Lemma token_is_kept_witness :
  token (run serving [Resume 0 (receiving ConnectionClosed quiet);
                      Resume 0 (receiving TimedOut quiet)])
  = token serving.
Proof.
  apply token_is_kept. vm_compute. eexists. reflexivity.
Defined.

(** X15. Nothing clears the stop event: once set it stays set over
    every run. *)
Theorem stop_event_is_never_cleared (w : World) (evs : list Event) :
  stop_event w = true → stop_event (run w evs) = true.
Proof.
  revert w. induction evs as [|ev evs IH]; intros w H; [done|].
  simpl. apply IH. by apply step_stop_monotone.
Qed.

Lemma stop_event_is_never_cleared_witness :
  stop_event (run (step serving Signal) [Resume 0 quiet; ResumeMain quiet]) = true.
Proof. apply stop_event_is_never_cleared. reflexivity. Defined.

(** X16. Once the camera object is there without a driver it stays
    so: [main_loop] creates and initialises the camera only while the
    global is [None], and nothing in the client calls [initialize] or
    [check_health] again.  From then on no [image] and no [frame]
    envelope is sent, whatever is requested. *)
Theorem driverless_camera_sends_no_picture (w : World) (evs : list Event) :
  driverless w →
  driverless (run w evs) ∧
  ∃ ext, trace (run w evs) = trace w ++ ext ∧ Forall no_picture ext.
Proof.
  revert w. induction evs as [|ev evs IH]; intros w Hd.
  - split; [done|]. exists []. by rewrite app_nil_r.
  - simpl. pose proof (step_settled w ev) as (_ & _ & Hk).
    destruct (IH _ (Hk Hd)) as (Hd' & ext2 & E2 & H2).
    destruct (step_driverless_no_picture w ev Hd) as (ext1 & E1 & H1).
    split; [done|]. exists (ext1 ++ ext2).
    rewrite E2, E1, <- app_assoc. split; [done|].
    apply Forall_app. by split.
Qed.

Lemma driverless_camera_sends_no_picture_witness :
  let w := main_loop_finally serving in
  let evs := [Resume 0 (receiving (request "capture_request" (Some "A")) quiet);
              Resume 0 (receiving (request "stream_request" (Some "A")) quiet);
              Resume 3 quiet; Resume 1 quiet] in
  driverless (run w evs) ∧
  ∃ ext, trace (run w evs) = trace w ++ ext ∧ Forall no_picture ext.
Proof.
  apply driverless_camera_sends_no_picture.
  vm_compute. eexists. split; reflexivity.
Defined.

(** X17. In every state the process reaches, no two tasks share an
    identifier, and whenever a task exists the camera object and the
    connection object exist. *)
Theorem reachable_tasks_are_distinct_and_equipped (c : Config)
    (disk : Camera.FS) (evs : list Event) :
  tids_distinct (run (boot c disk) evs) ∧ equipped (run (boot c disk) evs).
Proof.
  destruct (run_well_formed evs _ (boot_well_formed c disk)) as (H1 & _ & H3).
  by split.
Qed.


Lemma connect_and_register_success w env :
  (connect_and_register w env).1 = true →
  websocket (connect_and_register w env).2
    = Some {| conn := next_conn w; open := true |} ∧
  tasks (connect_and_register w env).2 = tasks w ∧
  next_tid (connect_and_register w env).2 = next_tid w ∧
  cohort (connect_and_register w env).2 = cohort w ∧
  stop_event (connect_and_register w env).2 = stop_event w ∧
  camera (connect_and_register w env).2 = camera w.
Proof.
  unfold connect_and_register.
  destruct (truthy (token w)); [|destruct (registration env)];
    destruct (connection env); simpl; done.
Qed.


Lemma keepalive_ends self period e w env :
  find_task (tid self) w = Some self →
  find_task (tid self) (keepalive self period e w env) = None ↔
  stop_event w = true ∨
  ∃ ws, websocket w = Some ws ∧ open ws = true ∧ send env = SendClosed.
Proof.
  intros Hf. unfold keepalive, ws_send.
  assert (Hgone : ∀ w0, find_task (tid self) (finish (tid self) w0) = None)
    by (intros w0; apply find_filter_None).
  destruct (stop_event w); [split; [by left|by rewrite Hgone]|].
  destruct (websocket w) as [ws|]; simpl.
  2: { unfold find_task in *. simpl. rewrite Hf.
       split; [done|]. by intros [? | (ws & ? & _)]. }
  destruct (open ws) eqn:Ho; simpl.
  2: { unfold find_task in *. simpl. rewrite Hf.
       split; [done|]. intros [? | (ws' & [= <-] & ? & _)]; congruence. }
  destruct (send env); simpl.
  - unfold find_task in *. simpl. rewrite Hf.
    split; [done|]. by intros [? | (ws' & _ & _ & ?)].
  - rewrite Hgone. split; [|done]. intros _. right. by exists ws.
  - unfold find_task in *. simpl. rewrite Hf.
    split; [done|]. by intros [? | (ws' & _ & _ & ?)].
Qed.

(** X18. [connect_and_register] returns [True] exactly when the
    device is admitted (a token is held, or the registration answers
    200) and the first message on the new connection is [connected].
    Registration is skipped while a token is held.  As soon as
    [websockets.connect] returns, the new connection object replaces
    the global one, also when the confirmation then fails or times out;
    the function closes nothing and creates no task. *)
Theorem connect_and_register_outcome (w : World) (env : Env) :
  let out := connect_and_register w env in
  let admitted :=
    is_Some (truthy (token w)) ∨ ∃ tok, registration env = Registered tok in
  (out.1 = true ↔ admitted ∧ connection env = Confirmed) ∧
  match connection env with
  | Refused => websocket out.2 = websocket w
  | _ => (admitted ∧
          websocket out.2 = Some {| conn := next_conn w; open := true |}) ∨
         (¬ admitted ∧ websocket out.2 = websocket w)
  end ∧
  (token out.2 = token w ∨
   truthy (token w) = None ∧ registration env = Registered (token out.2)) ∧
  trace out.2 = trace w ∧ tasks out.2 = tasks w.
Proof.
  unfold connect_and_register.
  destruct (truthy (token w)) as [tok|] eqn:Et.
  - assert (Ha : is_Some (Some tok) ∨ ∃ tok, registration env = Registered tok)
      by (left; by eexists).
    destruct (connection env) eqn:Ec; simpl; split_and!; try done;
      try (by left); try (split; [done|]; by intros [_ ?]).
  - destruct (registration env) as [tok| |] eqn:Er.
    + assert (Ha : is_Some (@None string) ∨
                   ∃ tok0, Registered tok = Registered tok0)
        by (right; by eexists).
      destruct (connection env) eqn:Ec; simpl; split_and!; try done;
        try (by left); try (right; by split);
        try (split; [done|]; by intros [_ ?]).
    + assert (Hn : ¬ (is_Some (@None string) ∨
                      ∃ tok0, Rejected = Registered tok0))
        by (intros [[? ?] | [? ?]]; done).
      simpl. split_and!; try done; try by left.
      * split; [done|]. by intros [? _].
      * destruct (connection env); [done|by right..].
    + assert (Hn : ¬ (is_Some (@None string) ∨
                      ∃ tok0, RegistrationError = Registered tok0))
        by (intros [[? ?] | [? ?]]; done).
      simpl. split_and!; try done; try by left.
      * split; [done|]. by intros [? _].
      * destruct (connection env); [done|by right..].
Qed.





(** X21. The reconnect from inside the router does not look at the
    stop event: once the router has left its loop and slept, its next
    resumption runs [main_loop], and if the camera object is there and
    the connection succeeds it creates a new router, ping loop and
    status loop over a new open connection and waits for them, also
    when a signal has arrived in between. *)
Theorem reconnect_ignores_the_stop_event (w : World) (t : nat) (self : Task)
    (env : Env) :
  find_task t w = Some self → coro self = Router Draining →
  is_Some (camera w) → (connect_and_register w env).1 = true →
  let w' := step w (Resume t env) in
  let n := next_tid w in
  tasks w' = map (retarget t (Router (Gathering [n; S n; S (S n)])))
               (tasks w ++ cohort_tasks n (S (cohort w))) ∧
  stop_event w' = stop_event w ∧
  websocket w' = Some {| conn := next_conn w; open := true |}.
Proof.
  intros Hf Hc [cam Hcam] Hok. destruct (find_task_Some _ _ _ Hf) as [Htid _].
  cbv zeta. rewrite (step_resume _ _ _ _ Hf), Hc. simpl.
  unfold main_loop, ensure_camera. rewrite Hcam. simpl.
  destruct (connect_and_register_success _ _ Hok) as (Hws & Ht & Hn & Hco & Hs & _).
  destruct (connect_and_register w env) as [[] w2]; simpl in *; [|done].
  rewrite Ht, Hn, Hco, Htid. split_and!; try done.
  unfold cohort_tasks. by rewrite <- !app_assoc.
Qed.

Lemma reconnect_ignores_the_stop_event_witness :
  let w := run serving [Resume 0 (receiving ConnectionClosed quiet); Signal] in
  let w' := step w (Resume 0 quiet) in
  stop_event w = true ∧
  tasks w' = map (retarget 0 (Router (Gathering [3; 4; 5])))
               (tasks w ++ cohort_tasks 3 2) ∧
  stop_event w' = stop_event w ∧
  websocket w' = Some {| conn := 1; open := true |}.
Proof.
  intros w. split; [vm_compute; reflexivity|].
  apply (reconnect_ignores_the_stop_event w 0
           {| tid := 0; born := 1; coro := Router Draining |} quiet).
  - vm_compute. reflexivity.
  - reflexivity.
  - vm_compute. eexists. reflexivity.
  - vm_compute. reflexivity.
Defined.



(** X23. The ping loop and the status loop end in two cases only:
    the stop event is set at the loop test, or the send on an open
    connection raises [ConnectionClosed].  In particular a missing or
    closed connection does not end them: they skip the send and sleep. *)
Theorem keepalive_ends_iff (w : World) (t : nat) (self : Task) (env : Env) :
  find_task t w = Some self → coro self = Pinger ∨ coro self = Reporter →
  find_task t (step w (Resume t env)) = None ↔
  stop_event w = true ∨
  ∃ ws, websocket w = Some ws ∧ open ws = true ∧ send env = SendClosed.
Proof.
  intros Hf Hc. destruct (find_task_Some _ _ _ Hf) as [Htid _].
  rewrite (step_resume _ _ _ _ Hf). subst t.
  destruct Hc as [-> | ->]; by apply keepalive_ends.
Qed.

Lemma keepalive_ends_iff_witness :
  find_task 1 (step (step serving PeerClosed) (Resume 1 quiet)) = None ↔
  stop_event (step serving PeerClosed) = true ∨
  ∃ ws, websocket (step serving PeerClosed) = Some ws ∧ open ws = true ∧
        send quiet = SendClosed.
Proof.
  apply (keepalive_ends_iff (step serving PeerClosed) 1
           {| tid := 1; born := 1; coro := Pinger |} quiet).
  - vm_compute. reflexivity.
  - left. reflexivity.
Defined.



End SessionOverTime.
